(** * PostgreSQL schema generation of tortoise-orm

    A shallow embedding of
    [tortoise/backends/base_postgres/schema_generator.py]
    (class [BasePostgresSchemaGenerator]) and the properties of the DDL
    script it produces: rendering of column defaults, references and
    comments per table, many-to-many join tables, and the dependency
    ordered assembly of the final script.

    Python strings are [string], lists are [list], the sets that are only
    tested for membership and inclusion are [gset string], and the one set
    that is iterated ([schema_names]) is kept in its iteration order.  The
    generator instance carries mutable state ([comments_array],
    [schema_names]); methods that touch it live in a state and exception
    monad [M].  Methods inherited from [BaseSchemaGenerator], the field and
    converter helpers and the interpreter's own choices are not part of the
    file under study: they are the fields of the classes
    [BaseSchemaGenerator] and [Runtime]. *)

From Stdlib Require Import Ascii.
From stdpp Require Import base option list gmap sets strings pretty.

(** ** Strings *)

Definition nl : string := String (Ascii.ascii_of_nat 10) EmptyString.
Definition dq : string := String (Ascii.ascii_of_nat 34) EmptyString.

(** [sep.join(l)] *)
Fixpoint join (sep : string) (l : list string) : string :=
  match l with
  | [] => ""
  | x :: xs =>
      match xs with
      | [] => x
      | _ :: _ => x +:+ sep +:+ join sep xs
      end
  end.

(** [s.startswith(p)] *)
Fixpoint startswith (p s : string) : bool :=
  match p, s with
  | EmptyString, _ => true
  | String _ _, EmptyString => false
  | String a p', String b s' => bool_decide (a = b) && startswith p' s'
  end.

(** [s.replace(old, new)] for a non-empty [old]: occurrences are replaced
    from left to right and do not overlap; [skip] counts the characters of
    a replaced occurrence still to be dropped. *)
Fixpoint replace_from (skip : nat) (old new s : string) : string :=
  match s with
  | EmptyString => EmptyString
  | String c s' =>
      match skip with
      | S k => replace_from k old new s'
      | O =>
          if startswith old s
          then new +:+ replace_from (String.length old - 1) old new s'
          else String c (replace_from 0 old new s')
      end
  end.

Definition replace (old new s : string) : string := replace_from 0 old new s.

(** [s.translate(table)] for a list of strings as table: a character
    whose code is an index of the list is replaced by the entry, any
    other character stays. *)
Fixpoint translate (table : list string) (s : string) : string :=
  match s with
  | EmptyString => EmptyString
  | String c s' =>
      default (String c EmptyString) (table !! nat_of_ascii c)
      +:+ translate table s'
  end.

(** [list(dict.fromkeys(l))]: the first occurrence of each element, in
    order. *)
Fixpoint dict_fromkeys (l : list string) : list string :=
  match l with
  | [] => []
  | x :: xs => x :: filter (λ y, y ≠ x) (dict_fromkeys xs)
  end.

(** Truthiness of an optional string attribute: [None] and the empty
    string are false. *)
Definition truthy (o : option string) : option string :=
  match o with
  | Some s => if decide (s = "") then None else Some s
  | None => None
  end.

(** [a or b] for an optional string [a]. *)
Definition py_or (a : option string) (b : string) : string :=
  default b (truthy a).

(** ** Python values that occur as field defaults *)

Inductive pyval :=
  | PyNone
  | PyBool (b : bool)
  | PyInt (z : Z)
  | PyStr (s : string)
  | PyCallable (name : string)
  | PyObject (type_name repr : string).

Global Instance pyval_eq_dec : EqDecision pyval.
Proof. solve_decision. Defined.

Definition callable (v : pyval) : bool :=
  match v with PyCallable _ => true | _ => false end.

Definition is_not_None (v : pyval) : bool :=
  match v with PyNone => false | _ => true end.

(** [str(v)], as an f-string renders it. *)
Definition py_str (v : pyval) : string :=
  match v with
  | PyNone => "None"
  | PyBool true => "True"
  | PyBool false => "False"
  | PyInt z => pretty z
  | PyStr s => s
  | PyCallable name => "<function " +:+ name +:+ ">"
  | PyObject _ repr => repr
  end.

(** ** Exceptions and results *)

Inductive exn :=
  | ConfigurationError (msg : string)
  | NotImplementedError
  | KeyError (key : string)
  | AttributeError (attr : string)
  | TypeError
  | OtherError (what : string)
  | OutOfFuel.

Global Instance exn_eq_dec : EqDecision exn.
Proof. solve_decision. Defined.

Inductive result (A : Type) :=
  | Ok (a : A)
  | Raise (e : exn).
Arguments Ok {A} a.
Arguments Raise {A} e.

Definition rbind {A B} (r : result A) (f : A → result B) : result B :=
  match r with Ok a => f a | Raise e => Raise e end.

(** [mapM] in [result]: a comprehension or loop whose body may raise. *)
Fixpoint rmap {A B} (f : A → result B) (l : list A) : result (list B) :=
  match l with
  | [] => Ok []
  | x :: xs => rbind (f x) (λ y, rbind (rmap f xs) (λ ys, Ok (y :: ys)))
  end.

(** ** The data model read by the generator *)

Inductive FieldClass := UUIDField | TextField | JSONField | PlainField.

Global Instance FieldClass_eq_dec : EqDecision FieldClass.
Proof. solve_decision. Defined.

(** What the generator reads of a related model: [_meta.schema],
    [_meta.db_table], [_meta.db_pk_column] and the SQL type of
    [_meta.pk]. *)
Record ModelRef := {
  ref_schema : option string;
  ref_db_table : string;
  ref_db_pk_column : string;
  ref_pk_SQL_TYPE : string
}.

Global Instance ModelRef_eq_dec : EqDecision ModelRef.
Proof. solve_decision. Defined.

(** [field_object.reference] of a foreign-key or one-to-one column. *)
Record ForeignKeyFieldInstance := {
  fk_description : option string;
  (** [to_field_instance.source_field] *)
  to_field_source_field : option string;
  (** [to_field_instance.model_field_name] *)
  to_field_model_field_name : string;
  fk_related_model : ModelRef;
  fk_on_delete : string;
  fk_db_constraint : bool
}.

Global Instance ForeignKeyFieldInstance_eq_dec :
  EqDecision ForeignKeyFieldInstance.
Proof. solve_decision. Defined.

(** A field that has a column.  [auto_now_add] and [auto_now] are read
    with [getattr(..., False)]; [GENERATED_SQL] and [SQL_TYPE] are what
    [get_for_dialect(DIALECT, ...)] returns. *)
Record Field := {
  field_class : FieldClass;
  description : option string;
  default_value : pyval;
  auto_now_add : bool;
  auto_now : bool;
  pk : bool;
  generated : bool;
  GENERATED_SQL : option string;
  SQL_TYPE : string;
  null : bool;
  unique : bool;
  index : bool;
  source_field : option string;
  reference : option ForeignKeyFieldInstance
}.

Global Instance Field_eq_dec : EqDecision Field.
Proof. solve_decision. Defined.

Record ManyToManyFieldInstance := {
  m2m_generated : bool;
  through : string;
  backward_key : string;
  forward_key : string;
  m2m_on_delete : string;
  m2m_db_constraint : bool;
  m2m_related_model : ModelRef;
  m2m_description : option string
}.

Global Instance ManyToManyFieldInstance_eq_dec :
  EqDecision ManyToManyFieldInstance.
Proof. solve_decision. Defined.

(** The values of [_meta.fields_map]. *)
Inductive FieldObject :=
  | ColumnField (f : Field)
  | M2MField (f : ManyToManyFieldInstance).

Global Instance FieldObject_eq_dec : EqDecision FieldObject.
Proof. solve_decision. Defined.

(** An [Index] object of [tortoise.indexes]. *)
Record Index := {
  index_fields : list string;
  index_name : option string
}.

Global Instance Index_eq_dec : EqDecision Index.
Proof. solve_decision. Defined.

(** An entry of [_meta.indexes]: a tuple or list of field names, or an
    [Index] object. *)
Inductive IndexDecl :=
  | IndexFields (fields : list string)
  | IndexObject (i : Index).

Global Instance IndexDecl_eq_dec : EqDecision IndexDecl.
Proof. solve_decision. Defined.

(** [model._meta], with the SQL type of [_meta.pk]. *)
Record Model := {
  schema : option string;
  db_table : string;
  fields_db_projection : list (string * string);
  fields_map : gmap string FieldObject;
  unique_together : list (list string);
  indexes : list IndexDecl;
  table_description : option string;
  m2m_fields : list string;
  db_pk_column : string;
  pk_SQL_TYPE : string
}.

Global Instance Model_eq_dec : EqDecision Model.
Proof. solve_decision. Defined.

(** The dict returned by [_get_table_sql]. *)
Record TableSql := {
  table : string;
  table_schema : option string;
  table_model : Model;
  table_creation_string : string;
  references : gset string;
  m2m_tables : list string
}.

Global Instance TableSql_eq_dec : EqDecision TableSql.
Proof. solve_decision. Defined.

(** ** Collaborators *)

(** The methods [BasePostgresSchemaGenerator] inherits from
    [BaseSchemaGenerator] and calls without overriding them.
    [_get_models_to_create] yields the models registered for the client's
    connection, in declaration order.  The inherited method calls
    [model.check()] on each of them before it appends it and raises
    [ConfigurationError] for a model that fails the check (a
    unique-together group or an index that names no field, for one):
    the field stands for a call that returns, so what is proved below is
    about generators whose models all pass that check. *)
Class BaseSchemaGenerator := {
  _create_string :
    string → string → string → string → bool → string → string → string;
  _generate_index_name : string → Model → list string → string;
  _generate_fk_name : string → string → string → string → string;
  _get_unique_constraint_sql : Model → list string → string;
  _escape_comment : string → string;
  quote : string → string;
  _get_inner_statements : list string;
  _table_generate_extra : string → string;
  _get_models_to_create : list Model
}.

(** What the generator takes from outside the schema generators: the
    fields' [to_db_value], the [encoders] table of [tortoise.converters]
    (as [encoders.get(type(v))(v)]), [Index.get_sql], the rendering of a
    pypika [Table], and two choices of the interpreter: the order in which
    a [set] of strings is iterated after an [add], and whether a string is
    the same object as the literal [public].  A set is kept as the list of
    its elements in iteration order; adding a present element leaves it as
    it is, adding a new one gives some arrangement of the elements. *)
Class Runtime := {
  to_db_value : Field → pyval → Model → result pyval;
  encoders : pyval → result pyval;
  Index_get_sql : Index → Model → bool → string;
  Table_str : string → option string → string;
  set_add : string → list string → list string;
  set_add_present : ∀ x s, x ∈ s → set_add x s = s;
  set_add_absent : ∀ x s, x ∉ s → set_add x s ≡ₚ x :: s;
  is_public : string → bool;
  is_public_eq : ∀ s, is_public s = true → s = "public"
}.

(** ** The generator instance and its monad *)

(** The instance attributes set by [__init__]. *)
Record Generator := {
  comments_array : list string;
  schema_names : list string
}.

(** [__init__] *)
Definition init : Generator :=
  {| comments_array := []; schema_names := [] |}.

Definition M (A : Type) : Type := Generator → result A * Generator.

Definition ret {A} (a : A) : M A := λ g, (Ok a, g).

Definition raise {A} (e : exn) : M A := λ g, (Raise e, g).

Definition bind {A B} (c : M A) (f : A → M B) : M B :=
  λ g, match c g with
       | (Ok a, g') => f a g'
       | (Raise e, g') => (Raise e, g')
       end.

Definition lift {A} (r : result A) : M A := λ g, (r, g).

Notation "x <- c1 ;; c2" := (bind c1 (λ x, c2))
  (at level 100, c1 at next level, right associativity).

(** A [for] loop that threads an accumulator. *)
Fixpoint foldM {A B} (f : B → A → M B) (acc : B) (l : list A) : M B :=
  match l with
  | [] => ret acc
  | x :: xs => acc' <- f acc x ;; foldM f acc' xs
  end.

Definition with_comments (cs : list string) (g : Generator) : Generator :=
  {| comments_array := cs; schema_names := schema_names g |}.

Definition with_schema_names (ns : list string) (g : Generator) : Generator :=
  {| comments_array := comments_array g; schema_names := ns |}.

(** ** Templates *)

Definition IF_NOT_EXISTS : string := "IF NOT EXISTS ".

Definition exists_ (safe : bool) : string :=
  if safe then IF_NOT_EXISTS else "".

Definition SCHEMA_CREATION_TEMPLATE (exists_ schema_name : string) : string :=
  "CREATE SCHEMA " +:+ exists_ +:+ dq +:+ schema_name +:+ dq +:+ ";".

Definition TABLE_CREATE_TEMPLATE
    (exists_ table_name fields extra comment : string) : string :=
  "CREATE TABLE " +:+ exists_ +:+ table_name +:+ " (" +:+ fields +:+ ")"
  +:+ extra +:+ comment +:+ ";".

Definition TABLE_COMMENT_TEMPLATE (table_name comment : string) : string :=
  "COMMENT ON TABLE " +:+ table_name +:+ " IS '" +:+ comment +:+ "';".

Definition COLUMN_COMMENT_TEMPLATE (table_name column comment : string)
    : string :=
  "COMMENT ON COLUMN " +:+ table_name +:+ "." +:+ dq +:+ column +:+ dq
  +:+ " IS '" +:+ comment +:+ "';".

Definition GENERATED_PK_TEMPLATE (field_name generated_sql : string)
    : string :=
  dq +:+ field_name +:+ dq +:+ " " +:+ generated_sql.

Definition INDEX_CREATE_TEMPLATE (exists_ index_name table_name fields : string)
    : string :=
  "CREATE INDEX " +:+ exists_ +:+ dq +:+ index_name +:+ dq +:+ " ON "
  +:+ table_name +:+ " (" +:+ fields +:+ ");".

Definition FK_TEMPLATE (table_name field on_delete comment : string)
    : string :=
  " REFERENCES " +:+ table_name +:+ " (" +:+ dq +:+ field +:+ dq
  +:+ ") ON DELETE " +:+ on_delete +:+ comment.

Definition M2M_TABLE_TEMPLATE
    (exists_ table_name backward_key backward_type backward_fk
     forward_key forward_type forward_fk extra comment : string) : string :=
  "CREATE TABLE " +:+ exists_ +:+ table_name +:+ " (" +:+ nl
  +:+ "    " +:+ dq +:+ backward_key +:+ dq +:+ " " +:+ backward_type
  +:+ " NOT NULL" +:+ backward_fk +:+ "," +:+ nl
  +:+ "    " +:+ dq +:+ forward_key +:+ dq +:+ " " +:+ forward_type
  +:+ " NOT NULL" +:+ forward_fk +:+ nl
  +:+ ")" +:+ extra +:+ comment +:+ ";".

Definition cyclic_message : string :=
  "Can't create schema due to cyclic fk references".

(** ** The methods of [BasePostgresSchemaGenerator] *)

Section generator.
Context `{B : BaseSchemaGenerator} `{R : Runtime}.

(** The argument [constraint_name] is accepted and not used. *)
Definition _create_fk_string
    (constraint_name db_column table field on_delete comment : string)
    : string :=
  FK_TEMPLATE table field on_delete comment.

(** [_get_escape_translation_table], for the table [inherited] that the
    method of the base class returns: the entry of the single quote
    (code 39) is set to two single quotes.  Python raises [IndexError]
    when the list has no such entry. *)
Definition _get_escape_translation_table (inherited : list string)
    : result (list string) :=
  if decide (nat_of_ascii "'" < length inherited)
  then Ok (<[nat_of_ascii "'" := "''"]> inherited)
  else Raise (OtherError "IndexError").

(** Reads [_meta.schema] and [_meta.db_table] of a model. *)
Definition _get_table_name_sql_string
    (schema : option string) (db_table : string) : string :=
  match schema with
  | Some s => dq +:+ s +:+ dq +:+ "." +:+ dq +:+ db_table +:+ dq
  | None => dq +:+ db_table +:+ dq
  end.

Definition table_name_of (model : Model) : string :=
  _get_table_name_sql_string (schema model) (db_table model).

Definition _get_index_sql (model : Model) (field_names : list string)
    (safe : bool) : string :=
  INDEX_CREATE_TEMPLATE (exists_ safe)
    (_generate_index_name "idx" model field_names)
    (table_name_of model)
    (join ", " (map quote field_names)).

Definition _table_comment_generator (table_name comment : string)
    : M string :=
  λ g,
    let comment :=
      TABLE_COMMENT_TEMPLATE table_name (_escape_comment comment) in
    (Ok "", with_comments (comments_array g ++ [comment]) g).

Definition _column_comment_generator (table column comment : string)
    : M string :=
  λ g,
    let comment :=
      COLUMN_COMMENT_TEMPLATE table column (_escape_comment comment) in
    if decide (comment ∈ comments_array g)
    then (Ok "", g)
    else (Ok "", with_comments (comments_array g ++ [comment]) g).

(** The text [_post_table_hook] returns for a collector holding [cs]. *)
Definition hook_text (cs : list string) : string :=
  let val := join nl cs in
  if decide (val = "") then "" else nl +:+ val.

Definition _post_table_hook : M string :=
  λ g, (Ok (hook_text (comments_array g)), with_comments [] g).

Definition _column_default_generator
    (table column : string) (default : pyval) (auto_now_add auto_now : bool)
    : string :=
  " DEFAULT"
  +:+ (if auto_now_add then " CURRENT_TIMESTAMP" else " " +:+ py_str default).

Definition _escape_default_value (default : pyval) : result pyval :=
  match default with
  | PyBool _ => Ok default
  | _ => encoders default
  end.

(** [isinstance(field_object, (UUIDField, TextField, JSONField))] *)
Definition non_inlinable (c : FieldClass) : bool :=
  match c with
  | UUIDField | TextField | JSONField => true
  | PlainField => false
  end.

(** The default fragment of a column (the block that sets [default] in
    the column loop of [_get_table_sql]). *)
Definition column_default (model : Model) (column_name : string)
    (field_object : Field) : result string :=
  let default := default_value field_object in
  let auto_now_add := auto_now_add field_object in
  let auto_now := auto_now field_object in
  if is_not_None default || auto_now || auto_now_add then
    if callable default || non_inlinable (field_class field_object)
    then Ok ""
    else
      rbind (to_db_value field_object default model) (λ default,
        match
          rbind (_escape_default_value default) (λ escaped,
            Ok (_column_default_generator (db_table model) column_name
                  escaped auto_now_add auto_now))
        with
        | Raise NotImplementedError => Ok ""
        | r => r
        end)
  else Ok "".

(** [model._meta.fields_map[name]] *)
Definition fields_map_get (model : Model) (name : string)
    : result FieldObject :=
  match fields_map model !! name with
  | Some field_object => Ok field_object
  | None => Raise (KeyError name)
  end.

(** The lists and the set the column loop fills. *)
Record Columns := {
  fields_to_create : list string;
  fields_with_index : list string;
  column_references : gset string
}.

(** The generated SQL of a primary key the database assigns, when the
    column is rendered by [GENERATED_PK_TEMPLATE] alone. *)
Definition generated_pk_sql (field_object : Field) : option string :=
  if pk field_object && generated field_object
  then truthy (GENERATED_SQL field_object)
  else None.

(** One round of the loop over [fields_db_projection.items()].  The
    projection names fields that have a column; a many-to-many field
    object met here has no column to render. *)
Definition render_column (model : Model) (acc : Columns)
    (item : string * string) : M Columns :=
  let '(field_name, column_name) := item in
  fo <- lift (fields_map_get model field_name) ;;
  match fo with
  | M2MField _ => raise (AttributeError "to_db_value")
  | ColumnField field_object =>
    comment <- match truthy (description field_object) with
               | Some d =>
                   _column_comment_generator (table_name_of model)
                     column_name d
               | None => ret ""
               end ;;
    default <- lift (column_default model column_name field_object) ;;
    match generated_pk_sql field_object with
    | Some generated_sql =>
        ret {| fields_to_create :=
                 fields_to_create acc
                 ++ [GENERATED_PK_TEMPLATE column_name generated_sql];
               fields_with_index := fields_with_index acc;
               column_references := column_references acc |}
    | None =>
      let nullable := if null field_object then "" else "NOT NULL" in
      let unique := if unique field_object then "UNIQUE" else "" in
      created <-
        match reference field_object with
        | Some reference =>
          comment <- match truthy (fk_description reference) with
                     | Some d =>
                         _column_comment_generator (table_name_of model)
                           column_name d
                     | None => ret ""
                     end ;;
          let to_field_name :=
            py_or (to_field_source_field reference)
              (to_field_model_field_name reference) in
          let related := fk_related_model reference in
          ret (_create_string column_name (SQL_TYPE field_object)
                 nullable unique (pk field_object) "" default
               +:+ (if fk_db_constraint reference
                    then _create_fk_string
                           (_generate_fk_name (db_table model) column_name
                              (ref_db_table related) to_field_name)
                           column_name
                           (_get_table_name_sql_string (ref_schema related)
                              (ref_db_table related))
                           to_field_name
                           (fk_on_delete reference)
                           comment
                    else ""),
               column_references acc ∪ {[ ref_db_table related ]})
        | None =>
          ret (_create_string column_name (SQL_TYPE field_object)
                 nullable unique (pk field_object) comment default,
               column_references acc)
        end ;;
      ret {| fields_to_create := fields_to_create acc ++ [created.1];
             fields_with_index :=
               fields_with_index acc
               ++ (if index field_object && negb (pk field_object)
                   then [column_name] else []);
             column_references := created.2 |}
    end
  end.

(** [field_object.source_field or field] for the named field. *)
Definition source_field_or (model : Model) (field : string) : result string :=
  rbind (fields_map_get model field) (λ fo,
    match fo with
    | ColumnField field_object => Ok (py_or (source_field field_object) field)
    | M2MField _ => Ok field
    end).

(** The loop over [_meta.unique_together]. *)
Definition render_unique_together (model : Model) : result (list string) :=
  rmap (λ unique_together_list,
          rbind (rmap (source_field_or model) unique_together_list)
            (λ unique_together_to_create,
               Ok (_get_unique_constraint_sql model
                     unique_together_to_create)))
       (unique_together model).

(** The list [_indexes] and then [field_indexes_sqls]. *)
Definition render_indexes (model : Model) (safe : bool)
    (fields_with_index : list string) : result (list string) :=
  let _indexes :=
    map (λ field_name, _get_index_sql model [field_name] safe)
      fields_with_index in
  rbind (rmap (λ indexes_list,
                 match indexes_list with
                 | IndexFields fields =>
                     rbind (rmap (source_field_or model) fields)
                       (λ indexes_to_create,
                          Ok (_get_index_sql model indexes_to_create safe))
                 | IndexObject i => Ok (Index_get_sql i model safe)
                 end)
              (indexes model))
    (λ more,
       Ok (filter (λ val, val ≠ "") (dict_fromkeys (_indexes ++ more)))).

(** The separator the join-table text is cleared of when the relation has
    no constraint. *)
Definition m2m_blank : string :=
  "," +:+ nl +:+ "    ," +:+ nl +:+ "    ".

(** The text of a join table: [M2M_TABLE_TEMPLATE] filled for the relation
    [field_object] of [model], then cleared of [m2m_blank] when the
    relation has no constraint. *)
Definition m2m_create_string (model : Model) (safe : bool)
    (field_object : ManyToManyFieldInstance) (comment : string) : string :=
  let through_table := Table_str (through field_object) (schema model) in
  let related := m2m_related_model field_object in
  let m2m_create_string :=
    M2M_TABLE_TEMPLATE (exists_ safe) through_table
      (backward_key field_object) (pk_SQL_TYPE model)
      (if m2m_db_constraint field_object
       then _create_fk_string "" (backward_key field_object)
              (table_name_of model) (db_pk_column model)
              (m2m_on_delete field_object) ""
       else "")
      (forward_key field_object) (ref_pk_SQL_TYPE related)
      (if m2m_db_constraint field_object
       then _create_fk_string "" (forward_key field_object)
              (_get_table_name_sql_string (ref_schema related)
                 (ref_db_table related))
              (ref_db_pk_column related)
              (m2m_on_delete field_object) ""
       else "")
      (_table_generate_extra through_table)
      comment in
  if m2m_db_constraint field_object
  then m2m_create_string
  else replace m2m_blank "" m2m_create_string.

(** One round of the loop over [_meta.m2m_fields]. *)
Definition render_m2m (model : Model) (safe : bool)
    (models_tables : list string) (acc : list string) (m2m_field : string)
    : M (list string) :=
  fo <- lift (fields_map_get model m2m_field) ;;
  match fo with
  | ColumnField _ => raise (AttributeError "_generated")
  | M2MField field_object =>
    if m2m_generated field_object
       || bool_decide (through field_object ∈ models_tables)
    then ret acc
    else
      let through_table :=
        Table_str (through field_object) (schema model) in
      comment <- match truthy (m2m_description field_object) with
                 | Some d => _table_comment_generator through_table d
                 | None => ret ""
                 end ;;
      let m2m_create_string :=
        m2m_create_string model safe field_object comment in
      hook <- _post_table_hook ;;
      ret (acc ++ [m2m_create_string +:+ hook])
  end.

Definition _get_table_sql (model : Model) (safe : bool) : M TableSql :=
  let models_to_create := _get_models_to_create in
  let models_tables := map db_table models_to_create in
  columns <- foldM (render_column model)
               {| fields_to_create := [];
                  fields_with_index := [];
                  column_references := ∅ |}
               (fields_db_projection model) ;;
  unique_constraints <- lift (render_unique_together model) ;;
  field_indexes_sqls <-
    lift (render_indexes model safe (fields_with_index columns)) ;;
  let fields_to_create :=
    fields_to_create columns ++ unique_constraints
    ++ _get_inner_statements in
  let table_fields_string :=
    nl +:+ "    " +:+ join ("," +:+ nl +:+ "    ") fields_to_create +:+ nl in
  table_comment <- match truthy (table_description model) with
                   | Some d => _table_comment_generator (table_name_of model) d
                   | None => ret ""
                   end ;;
  let table_create_string :=
    TABLE_CREATE_TEMPLATE (exists_ safe) (table_name_of model)
      table_fields_string
      (_table_generate_extra (table_name_of model))
      table_comment in
  let table_create_string :=
    join nl (table_create_string :: field_indexes_sqls) in
  hook <- _post_table_hook ;;
  let table_create_string := table_create_string +:+ hook in
  m2m_tables_for_create <-
    foldM (render_m2m model safe models_tables) [] (m2m_fields model) ;;
  ret {| table := db_table model;
         table_schema := schema model;
         table_model := model;
         table_creation_string := table_create_string;
         references := column_references columns;
         m2m_tables := m2m_tables_for_create |}.

(** *** The ordering loop of [get_create_schema_sql] *)

(** The variables of the [while True] loop. *)
Record Ordering := {
  tables_to_create : list TableSql;
  created_tables : gset string;
  ordered_tables_for_create : list string;
  m2m_tables_to_create : list string
}.

(** [t["references"].issubset(created_tables | {t["table"]})] *)
Definition placeable (created_tables : gset string) (t : TableSql) : bool :=
  bool_decide (references t ⊆ created_tables ∪ {[ table t ]}).

(** [next(t for t in l if p(t))]; [None] stands for [StopIteration]. *)
Fixpoint next {A} (p : A → bool) (l : list A) : option A :=
  match l with
  | [] => None
  | t :: l' => if p t then Some t else next p l'
  end.

(** [l.remove(x)] on a list that holds [x]. *)
Fixpoint remove `{EqDecision A} (x : A) (l : list A) : list A :=
  match l with
  | [] => []
  | y :: l' => if decide (y = x) then l' else y :: remove x l'
  end.

Inductive Step :=
  | Break
  | StopIteration
  | Continue (st : Ordering).

(** One round of the loop, [tables_to_create_count] being [count]. *)
Definition loop_body (count : nat) (st : Ordering) : Step :=
  if decide (size (created_tables st) = count) then Break
  else
    match next (placeable (created_tables st)) (tables_to_create st) with
    | None => StopIteration
    | Some next_table_for_create =>
        Continue
          {| tables_to_create :=
               remove next_table_for_create (tables_to_create st);
             created_tables :=
               created_tables st ∪ {[ table next_table_for_create ]};
             ordered_tables_for_create :=
               ordered_tables_for_create st
               ++ [table_creation_string next_table_for_create];
             m2m_tables_to_create :=
               m2m_tables_to_create st ++ m2m_tables next_table_for_create |}
    end.

(** The loop, run for at most [fuel] rounds. *)
Fixpoint while_true (fuel count : nat) (st : Ordering) : result Ordering :=
  match fuel with
  | O => Raise OutOfFuel
  | S fuel' =>
      match loop_body count st with
      | Break => Ok st
      | StopIteration => Raise (ConfigurationError cyclic_message)
      | Continue st' => while_true fuel' count st'
      end
  end.

Definition start (tables_to_create : list TableSql) : Ordering :=
  {| tables_to_create := tables_to_create;
     created_tables := ∅;
     ordered_tables_for_create := [];
     m2m_tables_to_create := [] |}.

(** The loop started on the rendered tables; a round removes one table,
    so one round more than there are tables is enough. *)
Definition order_tables (tables_to_create : list TableSql)
    : result Ordering :=
  while_true (S (length tables_to_create)) (length tables_to_create)
    (start tables_to_create).

(** *** [get_create_schema_sql] *)

Definition schema_names_add (schema_name : string) : M unit :=
  λ g, (Ok (), with_schema_names (set_add schema_name (schema_names g)) g).

(** One round of the loop over [models_to_create]. *)
Definition collect_table (safe : bool) (acc : list TableSql) (model : Model)
    : M (list TableSql) :=
  _ <- match schema model with
       | Some schema_name => schema_names_add schema_name
       | None => ret ()
       end ;;
  t <- _get_table_sql model safe ;;
  ret (acc ++ [t]).

(** The list [create_schemas_sql] for the names held by the generator. *)
Definition create_schemas_sql (safe : bool) (names : list string)
    : list string :=
  map (SCHEMA_CREATION_TEMPLATE (exists_ safe))
      (filter (λ schema_name, is_public schema_name = false) names).

Definition get_create_schema_sql (safe : bool) : M string :=
  let models_to_create := _get_models_to_create in
  tables_to_create <- foldM (collect_table safe) [] models_to_create ;;
  names <- (λ g, (Ok (schema_names g), g)) ;;
  st <- lift (order_tables tables_to_create) ;;
  ret (join nl (create_schemas_sql safe names
                ++ ordered_tables_for_create st
                ++ m2m_tables_to_create st)).

End generator.

(** ** Instances used by the examples *)

(** [s.strip()] for blanks. *)
Fixpoint lstrip (s : string) : string :=
  match s with
  | String c s' => if decide (c = " "%char) then lstrip s' else s
  | EmptyString => EmptyString
  end.

Definition strip (s : string) : string :=
  String.rev (lstrip (String.rev (lstrip s))).

(** The translation of a comment the class sets up in
    [_get_escape_translation_table]: a single quote is doubled. *)
Fixpoint double_quotes (s : string) : string :=
  match s with
  | EmptyString => EmptyString
  | String c s' =>
      if decide (c = "'"%char)
      then String c (String c (double_quotes s'))
      else String c (double_quotes s')
  end.

(** [FIELD_TEMPLATE], filled the way a generator without inline comments
    fills it. *)
Definition FIELD_TEMPLATE
    (name type nullable unique : string) (is_primary_key : bool)
    (comment default : string) : string :=
  strip (dq +:+ name +:+ dq +:+ " " +:+ type +:+ " " +:+ nullable +:+ " "
         +:+ (if is_primary_key then "" else unique)
         +:+ (if is_primary_key then " PRIMARY KEY" else "")
         +:+ default).

Definition UNIQUE_CONSTRAINT_CREATE_TEMPLATE (index_name fields : string)
    : string :=
  "CONSTRAINT " +:+ dq +:+ index_name +:+ dq +:+ " UNIQUE (" +:+ fields +:+ ")".

Definition simple_index_name (prefix : string) (model : Model)
    (field_names : list string) : string :=
  join "_" (prefix :: db_table model :: field_names).

Definition simple_quote (s : string) : string := dq +:+ s +:+ dq.

(** A generator over the models [models]: no inner statements, no extra
    table text. *)
Definition simple_base (models : list Model) : BaseSchemaGenerator :=
  {| _create_string := FIELD_TEMPLATE;
     _generate_index_name := simple_index_name;
     _generate_fk_name := λ from_table from_field to_table to_field,
       join "_" ["fk"; from_table; from_field; to_table; to_field];
     _get_unique_constraint_sql := λ model field_names,
       UNIQUE_CONSTRAINT_CREATE_TEMPLATE
         (simple_index_name "uid" model field_names)
         (join ", " (map simple_quote field_names));
     _escape_comment := double_quotes;
     quote := simple_quote;
     _get_inner_statements := [];
     _table_generate_extra := λ _, "";
     _get_models_to_create := models |}.

Definition simple_encoders (v : pyval) : result pyval :=
  match v with
  | PyNone => Ok (PyStr "NULL")
  | PyBool _ | PyInt _ => Ok v
  | PyStr s => Ok (PyStr ("'" +:+ s +:+ "'"))
  | PyObject _ repr => Ok (PyStr ("'" +:+ repr +:+ "'"))
  | PyCallable _ => Raise TypeError
  end.

Definition simple_Table_str (name : string) (schema : option string)
    : string :=
  match schema with
  | Some s => dq +:+ s +:+ dq +:+ "." +:+ dq +:+ name +:+ dq
  | None => dq +:+ name +:+ dq
  end.

(** A set that is iterated in insertion order. *)
Definition add_last (x : string) (s : list string) : list string :=
  if decide (x ∈ s) then s else s ++ [x].

(** A set that is iterated newest first. *)
Definition add_first (x : string) (s : list string) : list string :=
  if decide (x ∈ s) then s else x :: s.

Lemma add_last_present x s : x ∈ s → add_last x s = s.
Proof. intros Hx. unfold add_last. by rewrite decide_True. Qed.

Lemma add_last_absent x s : x ∉ s → add_last x s ≡ₚ x :: s.
Proof.
  intros Hx. unfold add_last. rewrite decide_False by done.
  by rewrite Permutation_app_comm.
Qed.

Lemma add_first_present x s : x ∈ s → add_first x s = s.
Proof. intros Hx. unfold add_first. by rewrite decide_True. Qed.

Lemma add_first_absent x s : x ∉ s → add_first x s ≡ₚ x :: s.
Proof. intros Hx. unfold add_first. by rewrite decide_False. Qed.

Lemma same_object_eq (s : string) :
  bool_decide (s = "public") = true → s = "public".
Proof. apply bool_decide_eq_true_1. Qed.

Definition runtime_of (add : string → list string → list string)
    (present : ∀ x s, x ∈ s → add x s = s)
    (absent : ∀ x s, x ∉ s → add x s ≡ₚ x :: s) : Runtime :=
  {| to_db_value := λ _ v _, Ok v;
     encoders := simple_encoders;
     Index_get_sql := λ i model safe,
       INDEX_CREATE_TEMPLATE (exists_ safe)
         (default (simple_index_name "idx" model (index_fields i))
            (index_name i))
         (_get_table_name_sql_string (schema model) (db_table model))
         (join ", " (map simple_quote (index_fields i)));
     Table_str := simple_Table_str;
     set_add := add;
     set_add_present := present;
     set_add_absent := absent;
     is_public := λ s, bool_decide (s = "public");
     is_public_eq := same_object_eq |}.

Definition insertion_order : Runtime :=
  runtime_of add_last add_last_present add_last_absent.

Definition newest_first : Runtime :=
  runtime_of add_first add_first_present add_first_absent.

(** A column that is not a key and has no default. *)
Definition plain_column (sql_type : string) : Field :=
  {| field_class := PlainField; description := None;
     default_value := PyNone; auto_now_add := false; auto_now := false;
     pk := false; generated := false; GENERATED_SQL := None;
     SQL_TYPE := sql_type; null := false; unique := false; index := false;
     source_field := None; reference := None |}.

(** An [IntField(pk=True)]. *)
Definition id_column : Field :=
  {| field_class := PlainField; description := None;
     default_value := PyNone; auto_now_add := false; auto_now := false;
     pk := true; generated := true;
     GENERATED_SQL := Some "SERIAL NOT NULL PRIMARY KEY";
     SQL_TYPE := "INT"; null := false; unique := true; index := true;
     source_field := None; reference := None |}.

(** The column of a [ForeignKeyField] to the [id] of [target]. *)
Definition fk_column (target : ModelRef) (constraint : bool) : Field :=
  {| field_class := PlainField; description := None;
     default_value := PyNone; auto_now_add := false; auto_now := false;
     pk := false; generated := false; GENERATED_SQL := None;
     SQL_TYPE := "INT"; null := false; unique := false; index := false;
     source_field := None;
     reference :=
       Some {| fk_description := None;
               to_field_source_field := None;
               to_field_model_field_name := "id";
               fk_related_model := target;
               fk_on_delete := "CASCADE";
               fk_db_constraint := constraint |} |}.

Definition model_ref (schema : option string) (db_table : string) : ModelRef :=
  {| ref_schema := schema; ref_db_table := db_table;
     ref_db_pk_column := "id"; ref_pk_SQL_TYPE := "INT" |}.

(** A model with an [id] and the given further columns. *)
Definition simple_model (schema : option string) (db_table : string)
    (columns : list (string * Field)) : Model :=
  {| schema := schema; db_table := db_table;
     fields_db_projection :=
       ("id", "id") :: map (λ c, (c.1, c.1)) columns;
     fields_map :=
       list_to_map (("id", ColumnField id_column)
                    :: map (λ c, (c.1, ColumnField c.2)) columns);
     unique_together := []; indexes := []; table_description := None;
     m2m_fields := []; db_pk_column := "id"; pk_SQL_TYPE := "INT" |}.

(** ** Example models *)

(** Two tables that reference each other, with or without a database
    constraint. *)
Definition left_model (constraint : bool) : Model :=
  simple_model None "a" [("b_id", fk_column (model_ref None "b") constraint)].

Definition right_model (constraint : bool) : Model :=
  simple_model None "b" [("a_id", fk_column (model_ref None "a") constraint)].

(** A table [log] without references, in the namespace [schema_name]. *)
Definition log_model (schema_name : string) : Model :=
  simple_model (Some schema_name) "log" [].

(** Two tables in two namespaces, the second referencing the first. *)
Definition team_model : Model :=
  simple_model (Some "sport") "team" [("name", plain_column "TEXT")].

Definition player_model : Model :=
  simple_model (Some "people") "player"
    [("team_id", fk_column (model_ref (Some "sport") "team") true)].

(** The rank of the tables of the two-namespace example. *)
Definition example_rank (table : string) : nat :=
  if decide (table = "player") then 1 else 0.

(** [DatetimeField(auto_now_add=..., auto_now=...)] without a default,
    for at most one of the two arguments set.  The attributes are those
    the constructor of the field leaves: [auto_now] as given, and
    [auto_now_add] set by either argument
    ([self.auto_now_add = auto_now | auto_now_add]). *)
Definition datetime_column (auto_now_add auto_now : bool) : Field :=
  {| field_class := PlainField; description := None;
     default_value := PyNone;
     auto_now_add := auto_now || auto_now_add; auto_now := auto_now;
     pk := false; generated := false; GENERATED_SQL := None;
     SQL_TYPE := "TIMESTAMPTZ"; null := false; unique := false;
     index := false; source_field := None; reference := None |}.

(** A [CharField] whose default is the function [generate_token]. *)
Definition token_column : Field :=
  {| field_class := PlainField; description := None;
     default_value := PyCallable "generate_token";
     auto_now_add := false; auto_now := false;
     pk := false; generated := false; GENERATED_SQL := None;
     SQL_TYPE := "VARCHAR(100)"; null := false; unique := true;
     index := false; source_field := None; reference := None |}.

Definition event_model : Model :=
  simple_model None "event"
    [("created", datetime_column true false);
     ("modified", datetime_column false true);
     ("token", token_column)].

(** An indexed and described column. *)
Definition title_column : Field :=
  {| field_class := PlainField; description := Some "What's up";
     default_value := PyNone; auto_now_add := false; auto_now := false;
     pk := false; generated := false; GENERATED_SQL := None;
     SQL_TYPE := "VARCHAR(40)"; null := false; unique := false;
     index := true; source_field := None; reference := None |}.

(** A described table with that column. *)
Definition note_model : Model :=
  {| schema := None; db_table := "note";
     fields_db_projection := [("id", "id"); ("title", "title")];
     fields_map :=
       list_to_map [("id", ColumnField id_column);
                    ("title", ColumnField title_column)];
     unique_together := []; indexes := [];
     table_description := Some "Notes";
     m2m_fields := []; db_pk_column := "id"; pk_SQL_TYPE := "INT" |}.

(** The relation [Event.participants], through the table [event_team]. *)
Definition participants : ManyToManyFieldInstance :=
  {| m2m_generated := false; through := "event_team";
     backward_key := "event_id"; forward_key := "team_id";
     m2m_on_delete := "CASCADE"; m2m_db_constraint := true;
     m2m_related_model := model_ref None "team";
     m2m_description := Some "How participants relate" |}.

Definition meeting_model : Model :=
  {| schema := None; db_table := "event";
     fields_db_projection := [("id", "id")];
     fields_map :=
       list_to_map [("id", ColumnField id_column);
                    ("participants", M2MField participants)];
     unique_together := []; indexes := []; table_description := None;
     m2m_fields := ["participants"]; db_pk_column := "id";
     pk_SQL_TYPE := "INT" |}.

Definition squad_model : Model := simple_model None "team" [].

(** The join table, declared as a model of its own. *)
Definition event_team_model : Model :=
  simple_model None "event_team"
    [("event_id", fk_column (model_ref None "event") true);
     ("team_id", fk_column (model_ref None "team") true)].

Definition meeting_models : list Model :=
  [event_team_model; meeting_model; squad_model].

(** The namespaces of the models in the order in which the loop over the
    models meets them first. *)
Definition first_discovery (models : list Model) : list string :=
  dict_fromkeys (omap schema models).

(** A [BooleanField] whose default is [True]. *)
Definition flag_column : Field :=
  {| field_class := PlainField; description := None;
     default_value := PyBool true; auto_now_add := false; auto_now := false;
     pk := false; generated := false; GENERATED_SQL := None;
     SQL_TYPE := "BOOL"; null := false; unique := false; index := false;
     source_field := None; reference := None |}.

(** A described column whose default is an object. *)
Definition price_column : Field :=
  {| field_class := PlainField; description := Some "Price";
     default_value := PyObject "Decimal" "1.5";
     auto_now_add := false; auto_now := false;
     pk := false; generated := false; GENERATED_SQL := None;
     SQL_TYPE := "DECIMAL(10,2)"; null := false; unique := false;
     index := false; source_field := None; reference := None |}.

Definition article_model : Model :=
  simple_model None "article"
    [("active", flag_column); ("price", price_column);
     ("title", title_column)].

(** An interpreter whose fields convert no object: [to_db_value] raises
    [NotImplementedError] for one. *)
Definition converts_no_object : Runtime :=
  {| to_db_value := λ _ v _,
       match v with
       | PyObject _ _ => Raise NotImplementedError
       | _ => Ok v
       end;
     encoders := simple_encoders;
     Index_get_sql := Index_get_sql (Runtime:=insertion_order);
     Table_str := simple_Table_str;
     set_add := add_last;
     set_add_present := add_last_present;
     set_add_absent := add_last_absent;
     is_public := λ s, bool_decide (s = "public");
     is_public_eq := same_object_eq |}.

(** A table of 128 entries that changes no character. *)
Definition plain_table : list string :=
  map (λ n, String (ascii_of_nat n) EmptyString) (seq 0 128).

(** The relation [participants] without a constraint. *)
Definition guests : ManyToManyFieldInstance :=
  {| m2m_generated := false; through := "event_guest";
     backward_key := "event_id"; forward_key := "team_id";
     m2m_on_delete := "CASCADE"; m2m_db_constraint := false;
     m2m_related_model := model_ref None "team";
     m2m_description := None |}.

(** * Properties *)

(** ** Lists and sets *)

Lemma next_Some {A} (p : A → bool) (l : list A) (t : A) :
  next p l = Some t →
  p t = true ∧ ∃ l1 l2, l = l1 ++ t :: l2 ∧ Forall (λ x, p x = false) l1.
Proof.
  induction l as [|x l IH]; simpl; [done|].
  destruct (p x) eqn:Hx.
  - intros [= ->]. split; [done|]. by exists [], l.
  - intros [Ht (l1 & l2 & -> & Hl1)]%IH. split; [done|].
    exists (x :: l1), l2. split; [done|]. by constructor.
Qed.

Lemma next_None {A} (p : A → bool) (l : list A) :
  next p l = None ↔ Forall (λ x, p x = false) l.
Proof.
  induction l as [|x l IH]; simpl.
  - split; [constructor|done].
  - destruct (p x) eqn:Hx.
    + split; [done|]. intros [??]%Forall_cons. congruence.
    + rewrite IH. split; [by constructor|]. by intros [??]%Forall_cons.
Qed.

(** The table [next] finds is the one [remove] takes out: a table before
    it that compared equal would have been found first. *)
Lemma remove_found {A} `{EqDecision A} (p : A → bool) (l1 l2 : list A) (t : A) :
  p t = true → Forall (λ x, p x = false) l1 →
  remove t (l1 ++ t :: l2) = l1 ++ l2.
Proof.
  intros Ht. induction 1 as [|x l1 Hx _ IH]; simpl.
  - by rewrite decide_True.
  - rewrite decide_False; [by rewrite IH|]. intros ->. congruence.
Qed.

Lemma size_list_to_set_le (l : list string) :
  size (list_to_set l : gset string) ≤ length l.
Proof.
  induction l as [|x l IH].
  - done.
  - rewrite list_to_set_cons. rewrite size_union_alt, size_singleton.
    assert (size (list_to_set l ∖ {[x]} : gset string)
            ≤ size (list_to_set l : gset string)) as Hle
      by (apply subseteq_size; set_solver).
    simpl length. lia.
Qed.

Lemma size_list_to_set_NoDup (l : list string) :
  size (list_to_set l : gset string) = length l → NoDup l.
Proof.
  induction l as [|x l IH]; [constructor|].
  rewrite list_to_set_cons. simpl length.
  intros Hsize. destruct (decide (x ∈ l)) as [Hx|Hx].
  - assert ({[x]} ∪ list_to_set l = (list_to_set l : gset string)) as Heq
      by set_solver.
    rewrite Heq in Hsize. pose proof (size_list_to_set_le l). lia.
  - rewrite size_union, size_singleton in Hsize by set_solver.
    constructor; [done|]. apply IH. lia.
Qed.

(** ** The ordering loop *)

(** Every table of [placed] has its references among the tables placed
    before it and itself. *)
Definition in_dependency_order (placed : list TableSql) : Prop :=
  ∀ before t after, placed = before ++ t :: after →
    references t ⊆ list_to_set (map table before) ∪ {[ table t ]}.

(** What the loop variables hold once the tables [placed] have been taken,
    in this order, from the tables [tables]. *)
Record placed_so_far (tables : list TableSql) (st : Ordering)
    (placed : list TableSql) : Prop := {
  placed_perm : placed ++ tables_to_create st ≡ₚ tables;
  placed_created : created_tables st = list_to_set (map table placed);
  placed_ordered :
    ordered_tables_for_create st = map table_creation_string placed;
  placed_m2m : m2m_tables_to_create st = concat (map m2m_tables placed);
  placed_order : in_dependency_order placed
}.

Lemma placed_start (tables : list TableSql) :
  placed_so_far tables (start tables) [].
Proof.
  split; simpl; try done.
  intros before t after Heq. by destruct before.
Qed.

Lemma in_dependency_order_snoc (placed : list TableSql) (t : TableSql) :
  in_dependency_order placed →
  references t ⊆ list_to_set (map table placed) ∪ {[ table t ]} →
  in_dependency_order (placed ++ [t]).
Proof.
  intros Hplaced Ht before u after Heq.
  destruct after as [|v after _] using rev_ind.
  - apply app_inj_tail in Heq as [-> ->]. done.
  - rewrite app_comm_cons, app_assoc in Heq.
    apply app_inj_tail in Heq as [-> _]. by eapply Hplaced.
Qed.

Lemma loop_body_Continue (count : nat) (st st' : Ordering) :
  loop_body count st = Continue st' →
  ∃ l1 t l2,
    tables_to_create st = l1 ++ t :: l2
    ∧ Forall (λ x, placeable (created_tables st) x = false) l1
    ∧ placeable (created_tables st) t = true
    ∧ st' = {| tables_to_create := l1 ++ l2;
               created_tables := created_tables st ∪ {[ table t ]};
               ordered_tables_for_create :=
                 ordered_tables_for_create st ++ [table_creation_string t];
               m2m_tables_to_create :=
                 m2m_tables_to_create st ++ m2m_tables t |}.
Proof.
  unfold loop_body. case_decide; [done|].
  destruct (next _ _) as [t|] eqn:Hnext; [|done].
  intros [= <-]. apply next_Some in Hnext as (Ht & l1 & l2 & Heq & Hl1).
  exists l1, t, l2. repeat split; try done.
  rewrite Heq. by erewrite remove_found.
Qed.

Lemma loop_body_Break (count : nat) (st : Ordering) :
  loop_body count st = Break → size (created_tables st) = count.
Proof.
  unfold loop_body. case_decide; [done|]. by destruct (next _ _).
Qed.

Lemma placed_step (tables : list TableSql) (count : nat)
    (st st' : Ordering) (placed : list TableSql) :
  placed_so_far tables st placed →
  loop_body count st = Continue st' →
  ∃ t, t ∈ tables_to_create st
       ∧ placeable (created_tables st) t = true
       ∧ placed_so_far tables st' (placed ++ [t])
       ∧ length (tables_to_create st) = S (length (tables_to_create st')).
Proof.
  intros [Hperm Hcreated Hordered Hm2m Horder]
    (l1 & t & l2 & Heq & Hl1 & Ht & ->)%loop_body_Continue.
  exists t. split; [rewrite Heq; set_solver|]. split; [done|]. split.
  - split; simpl.
    + rewrite <- Hperm, Heq, <- app_assoc. apply Permutation_app_head.
      by rewrite <- Permutation_middle.
    + rewrite Hcreated, map_app, list_to_set_app_L. simpl. set_solver.
    + by rewrite Hordered, map_app.
    + rewrite Hm2m, map_app, concat_app. simpl. by rewrite app_nil_r.
    + apply in_dependency_order_snoc; [done|].
      apply bool_decide_eq_true_1 in Ht. by rewrite <- Hcreated.
  - simpl. rewrite Heq, !length_app. simpl. lia.
Qed.

(** The names created never outnumber the tables placed. *)
Lemma placed_size (tables : list TableSql) (st : Ordering)
    (placed : list TableSql) :
  placed_so_far tables st placed →
  size (created_tables st) + length (tables_to_create st) ≤ length tables.
Proof.
  intros [Hperm Hcreated _ _ _].
  rewrite <- (Permutation_length Hperm), length_app, Hcreated.
  pose proof (size_list_to_set_le (map table placed)) as Hle.
  rewrite length_map in Hle. lia.
Qed.

(** The loop from the state [st], with the rounds it can need. *)
Definition run (count : nat) (st : Ordering) : result Ordering :=
  while_true (S (length (tables_to_create st))) count st.

Lemma run_Continue (tables : list TableSql) (count : nat)
    (st st' : Ordering) (placed : list TableSql) :
  placed_so_far tables st placed →
  loop_body count st = Continue st' →
  run count st = run count st'.
Proof.
  intros Hplaced Hbody.
  destruct (placed_step _ _ _ _ _ Hplaced Hbody) as (t & _ & _ & _ & Hlen).
  unfold run. rewrite Hlen. simpl. by rewrite Hbody.
Qed.

(** The loop never runs out of rounds. *)
Lemma run_total (tables : list TableSql) (count : nat) (n : nat) :
  ∀ (st : Ordering) (placed : list TableSql),
    length (tables_to_create st) = n →
    placed_so_far tables st placed →
    run count st ≠ Raise OutOfFuel.
Proof.
  induction n as [|n IH]; intros st placed Hn Hplaced.
  - unfold run. rewrite Hn. simpl.
    destruct (loop_body count st) as [| |st'] eqn:Hbody; try done.
    destruct (placed_step _ _ _ _ _ Hplaced Hbody) as (t & _ & _ & _ & Hlen).
    lia.
  - destruct (loop_body count st) as [| |st'] eqn:Hbody.
    + unfold run. rewrite Hn. simpl. by rewrite Hbody.
    + unfold run. rewrite Hn. simpl. by rewrite Hbody.
    + rewrite (run_Continue _ _ _ _ _ Hplaced Hbody).
      destruct (placed_step _ _ _ _ _ Hplaced Hbody)
        as (t & _ & _ & Hplaced' & Hlen).
      apply (IH st' (placed ++ [t])); [lia|done].
Qed.

(** What holds when the loop ends at [break]. *)
Lemma run_Ok (tables : list TableSql) (n : nat) :
  ∀ (st st' : Ordering) (placed : list TableSql),
    length (tables_to_create st) = n →
    placed_so_far tables st placed →
    run (length tables) st = Ok st' →
    ∃ placed', placed_so_far tables st' placed'
               ∧ size (created_tables st') = length tables.
Proof.
  induction n as [|n IH]; intros st st' placed Hn Hplaced Hrun.
  - unfold run in Hrun. rewrite Hn in Hrun. simpl in Hrun.
    destruct (loop_body _ st) as [| |st1] eqn:Hbody; try done.
    injection Hrun as <-. exists placed. split; [done|].
    by apply loop_body_Break.
  - destruct (loop_body (length tables) st) as [| |st1] eqn:Hbody.
    + unfold run in Hrun. rewrite Hn in Hrun. simpl in Hrun.
      rewrite Hbody in Hrun. injection Hrun as <-. exists placed.
      split; [done|]. by apply loop_body_Break.
    + unfold run in Hrun. rewrite Hn in Hrun. simpl in Hrun.
      by rewrite Hbody in Hrun.
    + rewrite (run_Continue _ _ _ _ _ Hplaced Hbody) in Hrun.
      destruct (placed_step _ _ _ _ _ Hplaced Hbody)
        as (t & _ & _ & Hplaced' & Hlen).
      apply (IH st1 st' (placed ++ [t])); [lia|done|done].
Qed.

(** A script is returned only when every table was placed, in an order
    that respects the recorded references, and then the table names are
    pairwise distinct. *)
Lemma order_tables_Ok (tables : list TableSql) (st : Ordering) :
  order_tables tables = Ok st →
  ∃ placed,
    placed ≡ₚ tables
    ∧ NoDup (map table placed)
    ∧ in_dependency_order placed
    ∧ ordered_tables_for_create st = map table_creation_string placed
    ∧ m2m_tables_to_create st = concat (map m2m_tables placed).
Proof.
  intros Hrun.
  destruct (run_Ok tables (length tables) (start tables) st [] eq_refl
              (placed_start tables) Hrun) as (placed & Hplaced & Hsize).
  pose proof (placed_size _ _ _ Hplaced) as Hle.
  destruct Hplaced as [Hperm Hcreated Hordered Hm2m Horder].
  assert (tables_to_create st = []) as Hnil
    by (apply length_zero_iff_nil; lia).
  rewrite Hnil, app_nil_r in Hperm.
  exists placed. repeat split; try done.
  apply size_list_to_set_NoDup.
  rewrite <- Hcreated, Hsize, length_map. by rewrite Hperm.
Qed.

Lemma order_tables_total (tables : list TableSql) :
  order_tables tables ≠ Raise OutOfFuel.
Proof.
  apply (run_total tables (length tables) (length tables) (start tables) []);
    [done|apply placed_start].
Qed.

(** The states the loop goes through. *)
Inductive reaches (count : nat) : Ordering → Ordering → Prop :=
  | reaches_here (st : Ordering) : reaches count st st
  | reaches_next (st st' st'' : Ordering) :
      loop_body count st = Continue st' →
      reaches count st' st'' →
      reaches count st st''.

Lemma reaches_run (tables : list TableSql) (count : nat) (st st' : Ordering) :
  reaches count st st' →
  ∀ placed, placed_so_far tables st placed →
    run count st = run count st' ∧ ∃ placed', placed_so_far tables st' placed'.
Proof.
  induction 1 as [st|st st1 st2 Hbody _ IH]; intros placed Hplaced.
  - split; [done|]. by exists placed.
  - destruct (placed_step _ _ _ _ _ Hplaced Hbody)
      as (t & _ & _ & Hplaced' & _).
    destruct (IH _ Hplaced') as [Hrun Hex]. split; [|done].
    by rewrite (run_Continue _ _ _ _ _ Hplaced Hbody).
Qed.

(** With tables left and none of them placeable the loop raises. *)
Lemma run_stuck (tables : list TableSql) (st : Ordering)
    (placed : list TableSql) :
  placed_so_far tables st placed →
  tables_to_create st ≠ [] →
  (∀ t, t ∈ tables_to_create st →
        ¬ references t ⊆ created_tables st ∪ {[ table t ]}) →
  run (length tables) st = Raise (ConfigurationError cyclic_message).
Proof.
  intros Hplaced Hleft Hnone.
  pose proof (placed_size _ _ _ Hplaced) as Hsize.
  assert (0 < length (tables_to_create st)) as Hpos
    by (destruct (tables_to_create st); [done|simpl; lia]).
  unfold run. simpl. unfold loop_body.
  rewrite decide_False by lia.
  assert (next (placeable (created_tables st)) (tables_to_create st) = None)
    as ->; [|done].
  apply next_None, Forall_forall. intros t Ht.
  apply bool_decide_eq_false_2. by apply Hnone.
Qed.

Lemma minimal_element {A} (f : A → nat) (l : list A) :
  l ≠ [] → ∃ t, t ∈ l ∧ ∀ u, u ∈ l → f t ≤ f u.
Proof.
  induction l as [|x l IH]; [done|]. intros _.
  destruct l as [|y l].
  - exists x. split; [set_solver|]. intros u ->%list_elem_of_singleton. lia.
  - destruct IH as (t & Ht & Hmin); [done|].
    destruct (decide (f x ≤ f t)).
    + exists x. split; [set_solver|].
      intros u [->|Hu]%elem_of_cons; [lia|]. specialize (Hmin u Hu). lia.
    + exists t. split; [set_solver|].
      intros u [->|Hu]%elem_of_cons; [lia|]. by apply Hmin.
Qed.

(** When the table names are distinct, every reference names a table of
    the list, and the references other than those of a table to itself
    descend along some rank, the loop places every table. *)
Lemma run_acyclic (tables : list TableSql) (rank : string → nat) :
  NoDup (map table tables) →
  (∀ t r, t ∈ tables → r ∈ references t → r ∈ map table tables) →
  (∀ t r, t ∈ tables → r ∈ references t → r ≠ table t →
          rank r < rank (table t)) →
  ∀ n st placed,
    length (tables_to_create st) = n →
    placed_so_far tables st placed →
    ∃ st', run (length tables) st = Ok st'.
Proof.
  intros Hnodup Hclosed Hrank.
  induction n as [|n IH]; intros st placed Hn Hplaced.
  - exists st. unfold run. rewrite Hn. simpl. unfold loop_body.
    rewrite decide_True; [done|].
    destruct Hplaced as [Hperm Hcreated _ _ _].
    apply length_zero_iff_nil in Hn. rewrite Hn, app_nil_r in Hperm.
    rewrite Hcreated, size_list_to_set, length_map; [by rewrite Hperm|].
    by rewrite Hperm.
  - assert (tables_to_create st ≠ []) as Hleft
      by (intros Heq; by rewrite Heq in Hn).
    destruct (minimal_element (λ t, rank (table t)) _ Hleft)
      as (t & Ht & Hmin).
    pose proof (placed_size _ _ _ Hplaced) as Hsize.
    assert (placeable (created_tables st) t = true) as Hplaceable.
    { apply bool_decide_eq_true_2. intros r Hr.
      destruct (decide (r = table t)) as [->|Hne]; [set_solver|].
      apply elem_of_union_l.
      assert (t ∈ tables) as Htables.
      { rewrite <- (placed_perm _ _ _ Hplaced). set_solver. }
      specialize (Hrank t r Htables Hr Hne).
      apply Hclosed in Hr; [|done].
      apply list_elem_of_fmap in Hr as (u & -> & Hu).
      rewrite <- (placed_perm _ _ _ Hplaced) in Hu.
      apply elem_of_app in Hu as [Hu|Hu].
      - rewrite (placed_created _ _ _ Hplaced).
        apply elem_of_list_to_set, list_elem_of_fmap. by exists u.
      - specialize (Hmin u Hu). simpl in Hmin. lia. }
    destruct (loop_body (length tables) st) as [| |st1] eqn:Hbody.
    + apply loop_body_Break in Hbody. lia.
    + unfold loop_body in Hbody. rewrite decide_False in Hbody by lia.
      destruct (next _ _) eqn:Hnext; [done|].
      apply next_None in Hnext. rewrite Forall_forall in Hnext.
      specialize (Hnext t Ht). congruence.
    + rewrite (run_Continue _ _ _ _ _ Hplaced Hbody).
      destruct (placed_step _ _ _ _ _ Hplaced Hbody)
        as (u & _ & _ & Hplaced' & Hlen).
      apply (IH st1 (placed ++ [u])); [lia|done].
Qed.

(** ** Running the monad *)

Lemma bind_Ok {A B} (c : M A) (f : A → M B) (g g' : Generator) (b : B) :
  (x <- c ;; f x) g = (Ok b, g') →
  ∃ a g1, c g = (Ok a, g1) ∧ f a g1 = (Ok b, g').
Proof.
  unfold bind. destruct (c g) as [[a|e] g1]; [|done]. intros Hf.
  by exists a, g1.
Qed.

Lemma lift_Ok {A} (r : result A) (g g' : Generator) (a : A) :
  lift r g = (Ok a, g') → r = Ok a ∧ g' = g.
Proof. unfold lift. by intros [= -> ->]. Qed.

Lemma ret_Ok {A} (a b : A) (g g' : Generator) :
  ret a g = (Ok b, g') → b = a ∧ g' = g.
Proof. unfold ret. by intros [= -> ->]. Qed.

(** A property of the accumulator and the generator that every round
    keeps holds after the loop. *)
Lemma foldM_Ok {A B} (f : B → A → M B) (I : B → Generator → Prop)
    (l : list A) :
  (∀ acc x g acc' g',
     x ∈ l → I acc g → f acc x g = (Ok acc', g') → I acc' g') →
  ∀ acc g acc' g',
    I acc g → foldM f acc l g = (Ok acc', g') → I acc' g'.
Proof.
  induction l as [|x l IH]; intros Hstep acc g acc' g' HI; simpl.
  - by intros [-> ->]%ret_Ok.
  - intros (acc1 & g1 & Hx & Hl)%bind_Ok.
    eapply IH; [|eapply Hstep; [|done..]|done]; [|set_solver].
    intros ???????. eapply Hstep; [|done..]. set_solver.
Qed.

(** A computation that neither reads nor writes [schema_names]. *)
Definition frames {A} (c : M A) : Prop :=
  ∀ g ns,
    c (with_schema_names ns g) = ((c g).1, with_schema_names ns (c g).2).

Lemma frames_ret {A} (a : A) : frames (ret a).
Proof. done. Qed.

Lemma frames_raise {A} (e : exn) : frames (raise (A:=A) e).
Proof. done. Qed.

Lemma frames_lift {A} (r : result A) : frames (lift r).
Proof. done. Qed.

Lemma frames_bind {A B} (c : M A) (f : A → M B) :
  frames c → (∀ a, frames (f a)) → frames (x <- c ;; f x).
Proof.
  intros Hc Hf g ns. unfold bind. rewrite Hc.
  destruct (c g) as [[a|e] g1]; simpl; [apply Hf|done].
Qed.

Lemma frames_foldM {A B} (f : B → A → M B) (l : list A) :
  (∀ acc x, frames (f acc x)) → ∀ acc, frames (foldM f acc l).
Proof.
  intros Hf. induction l as [|x l IH]; intros acc; simpl.
  - apply frames_ret.
  - apply frames_bind; [apply Hf|apply IH].
Qed.

Section frame.
Context `{B : BaseSchemaGenerator} `{R : Runtime}.

Lemma frames_table_comment (table_name comment : string) :
  frames (_table_comment_generator table_name comment).
Proof. done. Qed.

Lemma frames_column_comment (table column comment : string) :
  frames (_column_comment_generator table column comment).
Proof.
  intros g ns. unfold _column_comment_generator. simpl.
  by case_decide.
Qed.

Lemma frames_post_table_hook : frames _post_table_hook.
Proof. done. Qed.

Create HintDb frames.

Local Hint Resolve frames_ret frames_raise frames_lift frames_table_comment
  frames_column_comment frames_post_table_hook : frames.

Local Ltac frames :=
  repeat first
    [ progress eauto with frames
    | apply frames_bind; [|intros ?]
    | apply frames_foldM; intros ??
    | match goal with
      | |- frames (match ?x with _ => _ end) => destruct x
      | |- frames (let '(_, _) := ?x in _) => destruct x
      end ].

Lemma frames_render_column (model : Model) (acc : Columns)
    (item : string * string) :
  frames (render_column model acc item).
Proof. unfold render_column. frames. Qed.

Lemma frames_render_m2m (model : Model) (safe : bool)
    (models_tables acc : list string) (m2m_field : string) :
  frames (render_m2m model safe models_tables acc m2m_field).
Proof. unfold render_m2m. frames. Qed.

Lemma frames_get_table_sql (model : Model) (safe : bool) :
  frames (_get_table_sql model safe).
Proof.
  unfold _get_table_sql.
  pose proof frames_render_column. pose proof frames_render_m2m.
  frames.
Qed.

End frame.

(** The same, for a property that also speaks of the elements gone
    through. *)
Lemma foldM_Ok_prefix {A B} (f : B → A → M B)
    (I : list A → B → Generator → Prop) :
  (∀ seen x acc g acc' g',
     I seen acc g → f acc x g = (Ok acc', g') → I (seen ++ [x]) acc' g') →
  ∀ l seen acc g acc' g',
    I seen acc g → foldM f acc l g = (Ok acc', g') → I (seen ++ l) acc' g'.
Proof.
  intros Hstep. induction l as [|x l IH]; intros seen acc g acc' g' HI; simpl.
  - intros [-> ->]%ret_Ok. by rewrite app_nil_r.
  - intros (acc1 & g1 & Hx & Hl)%bind_Ok.
    rewrite cons_middle, app_assoc. eapply IH; [|done].
    by eapply Hstep.
Qed.

(** ** One table *)

Section table.
Context `{B : BaseSchemaGenerator} `{R : Runtime}.

(** The collector after a column comment was handed to it. *)
Definition noted (table column : string) (comment : option string)
    (g : Generator) : Generator :=
  match truthy comment with
  | Some d => (_column_comment_generator table column d g).2
  | None => g
  end.

(** The reference clause of a column. *)
Definition fk_clause (model : Model) (column_name : string)
    (field_object : Field) : string :=
  match reference field_object with
  | Some reference =>
      let to_field_name :=
        py_or (to_field_source_field reference)
          (to_field_model_field_name reference) in
      let related := fk_related_model reference in
      if fk_db_constraint reference
      then _create_fk_string
             (_generate_fk_name (db_table model) column_name
                (ref_db_table related) to_field_name)
             column_name
             (_get_table_name_sql_string (ref_schema related)
                (ref_db_table related))
             to_field_name (fk_on_delete reference) ""
      else ""
  | None => ""
  end.

(** The column definition without its reference clause. *)
Definition column_definition (column_name : string) (field_object : Field)
    (default : string) : string :=
  _create_string column_name (SQL_TYPE field_object)
    (if null field_object then "" else "NOT NULL")
    (if unique field_object then "UNIQUE" else "")
    (pk field_object) "" default.

(** The entry of [fields_to_create] for a column. *)
Definition column_entry (model : Model) (column_name : string)
    (field_object : Field) (default : string) : string :=
  match generated_pk_sql field_object with
  | Some generated_sql => GENERATED_PK_TEMPLATE column_name generated_sql
  | None =>
      match reference field_object with
      | Some _ =>
          column_definition column_name field_object default
          +:+ fk_clause model column_name field_object
      | None => column_definition column_name field_object default
      end
  end.

(** The table a column adds to the references of its table. *)
Definition column_target (field_object : Field) : option string :=
  match generated_pk_sql field_object, reference field_object with
  | None, Some reference => Some (ref_db_table (fk_related_model reference))
  | _, _ => None
  end.

(** What a round of the column loop does to the accumulator and to the
    generator, for the field [field_object] with the default fragment
    [default]. *)
Definition column_acc (model : Model) (acc : Columns) (column_name : string)
    (field_object : Field) (default : string) : Columns :=
  {| fields_to_create :=
       fields_to_create acc
       ++ [column_entry model column_name field_object default];
     fields_with_index :=
       fields_with_index acc
       ++ (match generated_pk_sql field_object with
           | Some _ => []
           | None =>
               if index field_object && negb (pk field_object)
               then [column_name] else []
           end);
     column_references :=
       match column_target field_object with
       | Some target => column_references acc ∪ {[ target ]}
       | None => column_references acc
       end |}.

Definition column_state (model : Model) (column_name : string)
    (field_object : Field) (g : Generator) : Generator :=
  let g1 :=
    noted (table_name_of model) column_name (description field_object) g in
  match generated_pk_sql field_object, reference field_object with
  | None, Some reference =>
      noted (table_name_of model) column_name (fk_description reference) g1
  | _, _ => g1
  end.

Lemma optional_column_comment (table column : string)
    (comment : option string) (g : Generator) :
  match truthy comment with
  | Some d => _column_comment_generator table column d
  | None => ret ""
  end g = (Ok "", noted table column comment g).
Proof.
  unfold noted. destruct (truthy comment); [|done].
  unfold _column_comment_generator. by case_decide.
Qed.

Lemma render_column_Ok (model : Model) (acc acc' : Columns)
    (field_name column_name : string) (g g' : Generator) :
  render_column model acc (field_name, column_name) g = (Ok acc', g') →
  ∃ field_object default,
    fields_map model !! field_name = Some (ColumnField field_object)
    ∧ column_default model column_name field_object = Ok default
    ∧ acc' = column_acc model acc column_name field_object default
    ∧ g' = column_state model column_name field_object g.
Proof.
  unfold render_column, fields_map_get, column_acc, column_state,
    column_entry, column_target.
  unfold bind, lift, ret, raise.
  destruct (fields_map model !! field_name) as [[f|f]|]; try done.
  rewrite optional_column_comment.
  destruct (column_default model column_name f) as [df|e] eqn:Hdf; [|done].
  intros Hrun. exists f, df. do 2 (split; [done|]). revert Hrun.
  destruct (generated_pk_sql f);
    [intros [= <- <-]; by rewrite app_nil_r|].
  unfold fk_clause, column_definition.
  destruct (reference f) as [r|]; [rewrite optional_column_comment|];
    by intros [= <- <-].
Qed.

Lemma render_column_eval (model : Model) (acc : Columns)
    (field_name column_name : string) (g : Generator)
    (field_object : Field) (default : string) :
  fields_map model !! field_name = Some (ColumnField field_object) →
  column_default model column_name field_object = Ok default →
  render_column model acc (field_name, column_name) g
  = (Ok (column_acc model acc column_name field_object default),
     column_state model column_name field_object g).
Proof.
  intros Hf Hd.
  unfold render_column, fields_map_get, column_acc, column_state,
    column_entry, column_target.
  unfold bind, lift, ret, raise. rewrite Hf, optional_column_comment, Hd.
  destruct (generated_pk_sql field_object); [by rewrite app_nil_r|].
  unfold fk_clause, column_definition.
  destruct (reference field_object) as [r|]; [|done].
  by rewrite optional_column_comment.
Qed.

(** Whether a many-to-many relation gets a join-table statement. *)
Definition m2m_emitted (models_tables : list string)
    (field_object : ManyToManyFieldInstance) : bool :=
  negb (m2m_generated field_object
        || bool_decide (through field_object ∈ models_tables)).

(** The comment statements of a join table. *)
Definition m2m_comments (model : Model)
    (field_object : ManyToManyFieldInstance) : list string :=
  match truthy (m2m_description field_object) with
  | Some d =>
      [TABLE_COMMENT_TEMPLATE
         (Table_str (through field_object) (schema model))
         (_escape_comment d)]
  | None => []
  end.

Lemma render_m2m_skip (model : Model) (safe : bool)
    (models_tables acc : list string) (m2m_field : string) (g : Generator)
    (field_object : ManyToManyFieldInstance) :
  fields_map model !! m2m_field = Some (M2MField field_object) →
  m2m_emitted models_tables field_object = false →
  render_m2m model safe models_tables acc m2m_field g = (Ok acc, g).
Proof.
  intros Hf Hskip. unfold render_m2m, fields_map_get, bind, lift.
  rewrite Hf. apply negb_false_iff in Hskip. by rewrite Hskip.
Qed.

Lemma render_m2m_Ok (model : Model) (safe : bool)
    (models_tables acc acc' : list string) (m2m_field : string)
    (g g' : Generator) :
  render_m2m model safe models_tables acc m2m_field g = (Ok acc', g') →
  ∃ field_object,
    fields_map model !! m2m_field = Some (M2MField field_object)
    ∧ if m2m_emitted models_tables field_object
      then acc' = acc ++ [m2m_create_string model safe field_object ""
                          +:+ hook_text (comments_array g
                                         ++ m2m_comments model field_object)]
           ∧ g' = with_comments [] g
      else acc' = acc ∧ g' = g.
Proof.
  unfold render_m2m, fields_map_get, m2m_emitted, m2m_comments.
  unfold bind, lift, ret, raise.
  destruct (fields_map model !! m2m_field) as [[f|f]|]; try done.
  intros Hrun. exists f. split; [done|]. revert Hrun.
  destruct (m2m_generated f || bool_decide (through f ∈ models_tables));
    simpl; [by intros [= <- <-]|].
  destruct (truthy (m2m_description f)); simpl.
  - by intros [= <- <-].
  - rewrite app_nil_r. by intros [= <- <-].
Qed.

(** The [CREATE TABLE] statement of a model whose column loop and
    constraint loop gave [fields_to_create]. *)
Definition create_statement (model : Model) (safe : bool)
    (fields_to_create : list string) : string :=
  TABLE_CREATE_TEMPLATE (exists_ safe) (table_name_of model)
    (nl +:+ "    " +:+ join ("," +:+ nl +:+ "    ") fields_to_create +:+ nl)
    (_table_generate_extra (table_name_of model)) "".

(** The comment statement of the table itself. *)
Definition table_comments (model : Model) : list string :=
  match truthy (table_description model) with
  | Some d =>
      [TABLE_COMMENT_TEMPLATE (table_name_of model) (_escape_comment d)]
  | None => []
  end.

(** How a successful [_get_table_sql] went: the column loop, the
    constraints and indexes, the statement with its index statements and
    the flushed comments, and the loop over the many-to-many fields. *)
Lemma get_table_sql_Ok (model : Model) (safe : bool) (g g' : Generator)
    (t : TableSql) :
  _get_table_sql model safe g = (Ok t, g') →
  ∃ columns g1 unique_constraints field_indexes_sqls,
    foldM (render_column model)
      {| fields_to_create := []; fields_with_index := [];
         column_references := ∅ |}
      (fields_db_projection model) g = (Ok columns, g1)
    ∧ render_unique_together model = Ok unique_constraints
    ∧ render_indexes model safe (fields_with_index columns)
      = Ok field_indexes_sqls
    ∧ table_creation_string t
      = join nl (create_statement model safe
                   (fields_to_create columns ++ unique_constraints
                    ++ _get_inner_statements)
                 :: field_indexes_sqls)
        +:+ hook_text (comments_array g1 ++ table_comments model)
    ∧ foldM (render_m2m model safe (map db_table _get_models_to_create)) []
        (m2m_fields model) (with_comments [] g1) = (Ok (m2m_tables t), g')
    ∧ table t = db_table model
    ∧ table_schema t = schema model
    ∧ table_model t = model
    ∧ references t = column_references columns.
Proof.
  unfold _get_table_sql.
  intros (columns & g1 & Hcolumns & Hrun)%bind_Ok.
  apply bind_Ok in Hrun as (uniq & ? & [Huniq ->]%lift_Ok & Hrun).
  apply bind_Ok in Hrun as (idx & ? & [Hidx ->]%lift_Ok & Hrun).
  apply bind_Ok in Hrun as (table_comment & g2 & Hcomment & Hrun).
  apply bind_Ok in Hrun as (hook & g3 & Hhook & Hrun).
  apply bind_Ok in Hrun as (m2m & g4 & Hm2m & [-> ->]%ret_Ok).
  exists columns, g1, uniq, idx. simpl.
  assert (table_comment = ""
          ∧ g2 = with_comments (comments_array g1 ++ table_comments model) g1)
    as [-> ->].
  { unfold table_comments. destruct (truthy (table_description model)).
    - by injection Hcomment as <- <-.
    - apply ret_Ok in Hcomment as [-> ->]. rewrite app_nil_r.
      by destruct g1. }
  injection Hhook as <- <-. by repeat split.
Qed.

End table.

(** ** The generator between two tables *)

Lemma frames_schema_names {A} (c : M A) (g : Generator) :
  frames c → schema_names (c g).2 = schema_names g.
Proof.
  intros Hc. specialize (Hc g (schema_names g)).
  assert (with_schema_names (schema_names g) g = g) as Hg by by destruct g.
  rewrite Hg in Hc. destruct (c g) as [r g1]. simpl in *.
  injection Hc as Hc. by rewrite Hc.
Qed.

Section tables.
Context `{B : BaseSchemaGenerator} `{R : Runtime}.

(** A table rendered to the end leaves the collector empty. *)
Lemma get_table_sql_flushed (model : Model) (safe : bool) (g g' : Generator)
    (t : TableSql) :
  _get_table_sql model safe g = (Ok t, g') → comments_array g' = [].
Proof.
  intros (columns & g1 & uniq & idx & _ & _ & _ & _ & Hm2m & _)%get_table_sql_Ok.
  revert Hm2m.
  apply (foldM_Ok _ (λ _ g, comments_array g = [])); [|done].
  intros acc x g2 acc' g2' _ Hempty (f & _ & Hcase)%render_m2m_Ok.
  destruct (m2m_emitted _ f); by destruct Hcase as [_ ->].
Qed.

(** A table rendered from an empty collector leaves the generator as it
    found it, and is the table a new generator renders. *)
Lemma get_table_sql_fresh (model : Model) (safe : bool) (g g' : Generator)
    (t : TableSql) :
  comments_array g = [] →
  _get_table_sql model safe g = (Ok t, g') →
  g' = g ∧ _get_table_sql model safe init = (Ok t, init).
Proof.
  intros Hempty Hrun.
  assert (g = with_schema_names (schema_names g) init) as Hg
    by (destruct g; simpl in *; by subst).
  pose proof (frames_get_table_sql model safe init (schema_names g)) as Hframe.
  rewrite <- Hg, Hrun in Hframe.
  destruct (_get_table_sql model safe init) as [r g0] eqn:Hinit.
  simpl in Hframe. injection Hframe as <- ->.
  pose proof (get_table_sql_flushed _ _ _ _ _ Hinit) as Hflushed.
  pose proof (frames_schema_names (_get_table_sql model safe) init
                (frames_get_table_sql model safe)) as Hnames.
  rewrite Hinit in Hnames. simpl in Hnames.
  assert (g0 = init) as -> by (destruct g0; simpl in *; by subst).
  by rewrite <- Hg.
Qed.

Lemma get_table_sql_replay (model : Model) (safe : bool) (g : Generator)
    (t : TableSql) :
  comments_array g = [] →
  _get_table_sql model safe init = (Ok t, init) →
  _get_table_sql model safe g = (Ok t, g).
Proof.
  intros Hempty Hinit.
  assert (g = with_schema_names (schema_names g) init) as Hg
    by (destruct g; simpl in *; by subst).
  rewrite Hg at 1. rewrite frames_get_table_sql, Hinit. simpl.
  by rewrite <- Hg.
Qed.

(** *** The namespaces held by the generator *)

Lemma elem_of_set_add (x y : string) (s : list string) :
  y ∈ set_add x s ↔ y = x ∨ y ∈ s.
Proof.
  destruct (decide (x ∈ s)) as [Hx|Hx].
  - rewrite set_add_present by done. set_solver.
  - rewrite (set_add_absent x s Hx). set_solver.
Qed.

Lemma NoDup_set_add (x : string) (s : list string) :
  NoDup s → NoDup (set_add x s).
Proof.
  intros Hs. destruct (decide (x ∈ s)) as [Hx|Hx].
  - by rewrite set_add_present.
  - rewrite (set_add_absent x s Hx). by constructor.
Qed.

(** The set after the namespaces of [models] were added to [names]. *)
Definition names_after (names : list string) (models : list Model)
    : list string :=
  foldl (λ names model,
           match schema model with
           | Some schema_name => set_add schema_name names
           | None => names
           end)
        names models.

Lemma elem_of_names_after (models : list Model) (names : list string)
    (n : string) :
  n ∈ names_after names models
  ↔ n ∈ names ∨ ∃ model, model ∈ models ∧ schema model = Some n.
Proof.
  revert names. induction models as [|m models IH]; intros names; simpl.
  - set_solver.
  - rewrite IH. destruct (schema m) as [s|] eqn:Hs.
    + rewrite elem_of_set_add. split.
      * intros [[->|?]|(m' & ? & ?)]; [right; exists m; set_solver|by left|].
        right. exists m'. set_solver.
      * intros [?|(m' & [->|?]%elem_of_cons & Hm')]; [by left; right| |].
        -- left; left. congruence.
        -- right. by exists m'.
    + split.
      * intros [?|(m' & ? & ?)]; [by left|]. right. exists m'. set_solver.
      * intros [?|(m' & [->|?]%elem_of_cons & Hm')]; [by left|congruence|].
        right. by exists m'.
Qed.

Lemma NoDup_names_after (models : list Model) (names : list string) :
  NoDup names → NoDup (names_after names models).
Proof.
  revert names. induction models as [|m models IH]; intros names Hnames;
    simpl; [done|].
  apply IH. destruct (schema m); [by apply NoDup_set_add|done].
Qed.

(** Adding namespaces that are all there changes nothing, not even the
    order of iteration. *)
Lemma names_after_present (models : list Model) (names : list string) :
  (∀ model n, model ∈ models → schema model = Some n → n ∈ names) →
  names_after names models = names.
Proof.
  revert names. induction models as [|m models IH]; intros names Hin;
    simpl; [done|].
  destruct (schema m) as [s|] eqn:Hs.
  - rewrite set_add_present by (eapply Hin; [|done]; set_solver).
    apply IH. intros ????. eapply Hin; [|done]. set_solver.
  - apply IH. intros ????. eapply Hin; [|done]. set_solver.
Qed.

Lemma names_after_again (models : list Model) (names : list string) :
  names_after (names_after names models) models = names_after names models.
Proof.
  apply names_after_present. intros m n Hm Hn.
  apply elem_of_names_after. right. by exists m.
Qed.

(** *** The loop over the models *)

(** [t] is what [_get_table_sql] gives for [model] on a generator whose
    collector is empty. *)
Definition rendered (safe : bool) (model : Model) (t : TableSql) : Prop :=
  _get_table_sql model safe init = (Ok t, init).

Lemma collect_Ok (safe : bool) (models : list Model) :
  ∀ acc g tables g',
    comments_array g = [] →
    foldM (collect_table safe) acc models g = (Ok tables, g') →
    g' = with_schema_names (names_after (schema_names g) models) g
    ∧ ∃ new, tables = acc ++ new ∧ Forall2 (rendered safe) models new.
Proof.
  induction models as [|m models IH]; intros acc g tables g' Hempty; simpl.
  - intros [-> ->]%ret_Ok. split; [by destruct g|].
    exists []. by rewrite app_nil_r.
  - intros (acc1 & g1 & Hm & Hrest)%bind_Ok.
    unfold collect_table in Hm.
    apply bind_Ok in Hm as ([] & g0 & Hadd & Hm).
    apply bind_Ok in Hm as (t & g0' & Ht & [-> ->]%ret_Ok).
    assert (g0 = with_schema_names
                   (match schema m with
                    | Some s => set_add s (schema_names g)
                    | None => schema_names g
                    end) g) as Hg0.
    { destruct (schema m).
      - by injection Hadd as <-.
      - apply ret_Ok in Hadd as [_ ->]. by destruct g. }
    assert (comments_array g0 = []) as Hempty0 by by rewrite Hg0.
    destruct (get_table_sql_fresh _ _ _ _ _ Hempty0 Ht) as [-> Hfresh].
    destruct (IH _ _ _ _ Hempty0 Hrest) as [-> (new & -> & Hnew)].
    split.
    + rewrite Hg0. simpl. by destruct (schema m).
    + exists (t :: new). split; [by rewrite <- app_assoc|].
      by constructor.
Qed.

Lemma collect_replay (safe : bool) (models : list Model)
    (new : list TableSql) :
  Forall2 (rendered safe) models new →
  ∀ acc g,
    comments_array g = [] →
    foldM (collect_table safe) acc models g
    = (Ok (acc ++ new),
       with_schema_names (names_after (schema_names g) models) g).
Proof.
  induction 1 as [|m t models new Ht _ IH]; intros acc g Hempty; simpl.
  - rewrite app_nil_r. by destruct g.
  - unfold bind at 1. unfold collect_table at 1.
    set (g0 := with_schema_names
                 (match schema m with
                  | Some s => set_add s (schema_names g)
                  | None => schema_names g
                  end) g).
    assert ((match schema m with
             | Some schema_name => schema_names_add schema_name
             | None => ret ()
             end) g = (Ok (), g0)) as Hadd.
    { subst g0. destruct (schema m); [done|]. by destruct g. }
    unfold bind at 1. rewrite Hadd.
    unfold bind at 1.
    rewrite (get_table_sql_replay m safe g0 t) by done.
    unfold ret at 1. rewrite IH by done.
    rewrite <- app_assoc. simpl. subst g0. simpl. by destruct (schema m).
Qed.

End tables.

(** ** The script *)

Section script.
Context `{B : BaseSchemaGenerator} `{R : Runtime}.

(** The script put together from the namespaces [names] and the tables
    [placed], in this order. *)
Definition script_of (safe : bool) (names : list string)
    (placed : list TableSql) : string :=
  join nl (create_schemas_sql safe names
           ++ map table_creation_string placed
           ++ concat (map m2m_tables placed)).

(** What [get_create_schema_sql] does once every model has rendered. *)
Lemma get_create_schema_sql_run (safe : bool) (g : Generator)
    (tables : list TableSql) :
  comments_array g = [] →
  Forall2 (rendered safe) _get_models_to_create tables →
  let names := names_after (schema_names g) _get_models_to_create in
  get_create_schema_sql safe g
  = (match order_tables tables with
     | Ok st =>
         Ok (join nl (create_schemas_sql safe names
                      ++ ordered_tables_for_create st
                      ++ m2m_tables_to_create st))
     | Raise e => Raise e
     end,
     with_schema_names names g).
Proof.
  intros Hempty Htables names. unfold get_create_schema_sql.
  unfold bind at 1.
  rewrite (collect_replay safe _ tables Htables [] g Hempty). simpl.
  unfold bind, lift, ret. simpl. by destruct (order_tables tables).
Qed.

(** How a returned script came about. *)
Lemma get_create_schema_sql_Ok (safe : bool) (g g' : Generator)
    (script : string) :
  comments_array g = [] →
  get_create_schema_sql safe g = (Ok script, g') →
  ∃ tables placed,
    Forall2 (rendered safe) _get_models_to_create tables
    ∧ g' = with_schema_names
             (names_after (schema_names g) _get_models_to_create) g
    ∧ placed ≡ₚ tables
    ∧ NoDup (map table placed)
    ∧ in_dependency_order placed
    ∧ script = script_of safe (schema_names g') placed.
Proof.
  intros Hempty Hrun. pose proof Hrun as Hrun'.
  unfold get_create_schema_sql in Hrun'.
  apply bind_Ok in Hrun' as (tables & g1 & Hcollect & _).
  destruct (collect_Ok _ _ _ _ _ _ Hempty Hcollect)
    as [_ (new & -> & Htables)].
  simpl in Htables.
  rewrite (get_create_schema_sql_run safe g new Hempty Htables) in Hrun.
  destruct (order_tables new) as [st|e] eqn:Horder; [|done].
  injection Hrun as <- <-.
  apply order_tables_Ok in Horder
    as (placed & Hperm & Hnodup & Horder & -> & ->).
  by exists new, placed.
Qed.

End script.

(** ** Cyclic references *)

Section cycle.
Context `{B : BaseSchemaGenerator} `{R : Runtime}.

(** C2.  When every model has rendered and the ordering loop, started on
    the rendered tables, comes to a state where tables are left to create
    and none of them has its references among the created tables and
    itself, [get_create_schema_sql] raises the configuration error that
    names cyclic foreign-key references; it returns no script. *)
Theorem cyclic_references_raise (safe : bool) (g : Generator)
    (tables : list TableSql) (st : Ordering) :
  comments_array g = [] →
  Forall2 (rendered safe) _get_models_to_create tables →
  reaches (length tables) (start tables) st →
  tables_to_create st ≠ [] →
  Forall (λ t, ¬ references t ⊆ created_tables st ∪ {[ table t ]})
    (tables_to_create st) →
  (get_create_schema_sql safe g).1
  = Raise (ConfigurationError "Can't create schema due to cyclic fk references").
Proof.
  intros Hempty Htables Hreach Hleft Hnone.
  rewrite (get_create_schema_sql_run safe g tables Hempty Htables). simpl.
  destruct (reaches_run tables _ _ _ Hreach [] (placed_start tables))
    as [Hrun (placed & Hplaced)].
  unfold order_tables. change (while_true _ _ _) with
    (run (length tables) (start tables)).
  rewrite Hrun, (run_stuck tables st placed Hplaced Hleft); [done|].
  intros t Ht. by eapply Forall_forall in Hnone.
Qed.

End cycle.

(** Two models, each with a constrained reference to the other, are
    rejected. *)
Lemma cyclic_references_raise_witness :
  (get_create_schema_sql
     (B:=simple_base [left_model true; right_model true])
     (R:=insertion_order) true init).1
  = Raise (ConfigurationError "Can't create schema due to cyclic fk references").
Proof.
  eapply (cyclic_references_raise
            (B:=simple_base [left_model true; right_model true])
            (R:=insertion_order) true init _ (start _)).
  - reflexivity.
  - repeat econstructor; unfold rendered; vm_compute; reflexivity.
  - apply reaches_here.
  - discriminate.
  - repeat constructor;
      apply (bool_decide_eq_false_1 _); vm_compute; reflexivity.
Defined.

(** ** Calling the generator again *)

Section again.
Context `{B : BaseSchemaGenerator} `{R : Runtime}.

(** C4, as amended.  A generator whose collector is empty (as [__init__]
    leaves it, and as a call that returned leaves it) gives the same
    script, byte for byte, when [get_create_schema_sql] is called on it
    a second time for the same models, in the same interpreter: the
    order in which the set of namespaces is iterated is the same in both
    calls. *)
Theorem second_call_same_script (safe : bool) (g g' : Generator)
    (script : string) :
  comments_array g = [] →
  get_create_schema_sql safe g = (Ok script, g') →
  get_create_schema_sql safe g' = (Ok script, g').
Proof.
  intros Hempty Hfirst. pose proof Hfirst as Hrun.
  apply get_create_schema_sql_Ok in Hrun
    as (tables & placed & Htables & Hg' & _); [|done].
  assert (comments_array g' = []) as Hempty' by by rewrite Hg'.
  rewrite (get_create_schema_sql_run safe g tables Hempty Htables) in Hfirst.
  rewrite (get_create_schema_sql_run safe g' tables Hempty' Htables).
  simpl in *.
  assert (names_after (schema_names g') _get_models_to_create
          = names_after (schema_names g) _get_models_to_create) as ->.
  { rewrite Hg'. simpl. apply names_after_again. }
  destruct (order_tables tables) as [st|e]; [|done].
  injection Hfirst as <- _. f_equal.
  rewrite Hg'. by destruct g.
Qed.

(** C10, as amended.  When every model renders, the call (whether it
    returns a script or raises the cyclic-reference error) leaves the
    comment collector empty; the set of namespaces is not reset: it
    holds the names it held before and the namespace of every model. *)
Theorem namespaces_survive_the_call (safe : bool) (g : Generator)
    (tables : list TableSql) :
  comments_array g = [] →
  Forall2 (rendered safe) _get_models_to_create tables →
  let g' := (get_create_schema_sql safe g).2 in
  comments_array g' = []
  ∧ ∀ n, n ∈ schema_names g'
         ↔ n ∈ schema_names g
           ∨ ∃ model, model ∈ _get_models_to_create ∧ schema model = Some n.
Proof.
  intros Hempty Htables.
  rewrite (get_create_schema_sql_run safe g tables Hempty Htables). simpl.
  split; [done|]. intros n. apply elem_of_names_after.
Qed.

End again.

Lemma second_call_same_script_witness :
  ∃ script g',
    get_create_schema_sql (B:=simple_base [player_model; team_model])
      (R:=insertion_order) true init = (Ok script, g')
    ∧ get_create_schema_sql (B:=simple_base [player_model; team_model])
        (R:=insertion_order) true g' = (Ok script, g').
Proof.
  eexists _, _.
  assert (∀ P Q : Prop, P → (P → Q) → P ∧ Q) as both by tauto.
  apply both.
  - vm_compute. reflexivity.
  - intros Hfirst.
    exact (second_call_same_script
             (B:=simple_base [player_model; team_model])
             (R:=insertion_order) true init _ _ eq_refl Hfirst).
Defined.

(** C4 as stated fails: the same two models, in the same declaration
    order, give two scripts under two interpreters that iterate a set
    in different orders; the namespace statements change places. *)
Lemma script_depends_on_set_order :
  create_schemas_sql (R:=insertion_order) true
    (schema_names
       (get_create_schema_sql (B:=simple_base [player_model; team_model])
          (R:=insertion_order) true init).2)
  = [SCHEMA_CREATION_TEMPLATE (exists_ true) "people";
     SCHEMA_CREATION_TEMPLATE (exists_ true) "sport"]
  ∧ create_schemas_sql (R:=newest_first) true
      (schema_names
         (get_create_schema_sql (B:=simple_base [player_model; team_model])
            (R:=newest_first) true init).2)
    = [SCHEMA_CREATION_TEMPLATE (exists_ true) "sport";
       SCHEMA_CREATION_TEMPLATE (exists_ true) "people"]
  ∧ match (get_create_schema_sql
             (B:=simple_base [player_model; team_model])
             (R:=insertion_order) true init).1,
          (get_create_schema_sql
             (B:=simple_base [player_model; team_model])
             (R:=newest_first) true init).1
    with
    | Ok script, Ok script' => script ≠ script'
    | _, _ => False
    end.
Proof. split; [by vm_compute|]. split; [by vm_compute|]. by vm_compute. Qed.

(** C10 as stated fails: a model in the namespace [sport] leaves the name
    in the generator. *)
Lemma namespaces_not_reset :
  schema_names
    (get_create_schema_sql (B:=simple_base [team_model])
       (R:=insertion_order) true init).2
  = ["sport"]
  ∧ (get_create_schema_sql (B:=simple_base [team_model])
       (R:=insertion_order) true init).2 ≠ init.
Proof. split; [by vm_compute|]. by vm_compute. Qed.

Lemma namespaces_survive_the_call_witness :
  let g' := (get_create_schema_sql (B:=simple_base [team_model])
               (R:=insertion_order) true init).2 in
  comments_array g' = []
  ∧ ∀ n, n ∈ schema_names g'
         ↔ n ∈ schema_names init
           ∨ ∃ model, model ∈ [team_model] ∧ schema model = Some n.
Proof.
  eapply (namespaces_survive_the_call (B:=simple_base [team_model])
            (R:=insertion_order) true init).
  - reflexivity.
  - repeat econstructor; unfold rendered; vm_compute; reflexivity.
Defined.

(** ** The column loop *)

Section columns.
Context `{B : BaseSchemaGenerator} `{R : Runtime}.

(** [item] is a column of [model] with the field [field_object], whose
    default fragment is [default]. *)
Definition column_of (model : Model) (item : string * string)
    (field_object : Field) (default : string) : Prop :=
  fields_map model !! item.1 = Some (ColumnField field_object)
  ∧ column_default model item.2 field_object = Ok default.

(** [c] is a comment statement on the column [column] of [model], from
    the description of its field or of its reference. *)
Definition column_comment (model : Model) (item : string * string)
    (c : string) : Prop :=
  ∃ field_object d,
    fields_map model !! item.1 = Some (ColumnField field_object)
    ∧ (truthy (description field_object) = Some d
       ∨ ∃ r, reference field_object = Some r
              ∧ truthy (fk_description r) = Some d)
    ∧ c = COLUMN_COMMENT_TEMPLATE (table_name_of model) item.2
            (_escape_comment d).

Lemma noted_comments (table column : string) (comment : option string)
    (g : Generator) :
  schema_names (noted table column comment g) = schema_names g
  ∧ (∀ d, truthy comment = Some d →
          COLUMN_COMMENT_TEMPLATE table column (_escape_comment d)
          ∈ comments_array (noted table column comment g))
  ∧ ∃ new,
      comments_array (noted table column comment g)
      = comments_array g ++ new
      ∧ Forall (λ c, ∃ d, truthy comment = Some d
                          ∧ c = COLUMN_COMMENT_TEMPLATE table column
                                  (_escape_comment d)) new.
Proof.
  unfold noted. destruct (truthy comment) as [d|].
  - unfold _column_comment_generator. case_decide; simpl.
    + split; [done|]. split; [by intros ? [= <-]|].
      exists []. by rewrite app_nil_r.
    + split; [done|]. split; [intros ? [= <-]; set_solver|].
      eexists. split; [done|]. repeat constructor. by exists d.
  - split; [done|]. split; [done|]. exists []. by rewrite app_nil_r.
Qed.

Lemma column_state_comments (model : Model) (item : string * string)
    (field_object : Field) (g : Generator) :
  fields_map model !! item.1 = Some (ColumnField field_object) →
  let g' := column_state model item.2 field_object g in
  schema_names g' = schema_names g
  ∧ (∀ d, truthy (description field_object) = Some d →
          COLUMN_COMMENT_TEMPLATE (table_name_of model) item.2
            (_escape_comment d) ∈ comments_array g')
  ∧ ∃ new,
      comments_array g' = comments_array g ++ new
      ∧ Forall (column_comment model item) new.
Proof.
  intros Hf. unfold column_state.
  destruct (noted_comments (table_name_of model) item.2
              (description field_object) g) as (Hs1 & Hin1 & new1 & Hc1 & Hnew1).
  assert (Forall (column_comment model item) new1) as Hnew1'.
  { eapply Forall_impl; [done|]. intros c (d & Hd & ->).
    exists field_object, d. split; [done|]. split; [by left|done]. }
  destruct (generated_pk_sql field_object); [by eauto|].
  destruct (reference field_object) as [r|] eqn:Hr; [|by eauto].
  destruct (noted_comments (table_name_of model) item.2 (fk_description r)
              (noted (table_name_of model) item.2
                 (description field_object) g))
    as (Hs2 & _ & new2 & Hc2 & Hnew2).
  split; [congruence|]. split.
  - intros d Hd. rewrite Hc2. apply elem_of_app. left. by apply Hin1.
  - exists (new1 ++ new2). split; [by rewrite Hc2, Hc1, app_assoc|].
    apply Forall_app. split; [done|].
    eapply Forall_impl; [done|]. intros c (d & Hd & ->).
    exists field_object, d. split; [done|]. split; [|done].
    right. by exists r.
Qed.

(** What the column loop leaves: an entry of [fields_to_create] per
    column, the tables recorded as references, and the comments handed to
    the collector. *)
Lemma render_columns_Ok (model : Model) (items : list (string * string)) :
  ∀ acc g columns g',
    foldM (render_column model) acc items g = (Ok columns, g') →
    schema_names g' = schema_names g
    ∧ (∃ entries,
         fields_to_create columns = fields_to_create acc ++ entries
         ∧ Forall2 (λ item entry,
                      ∃ field_object default,
                        column_of model item field_object default
                        ∧ entry = column_entry model item.2 field_object
                                    default)
             items entries)
    ∧ (∀ x, x ∈ column_references columns
            ↔ x ∈ column_references acc
              ∨ ∃ item field_object,
                  item ∈ items
                  ∧ fields_map model !! item.1
                    = Some (ColumnField field_object)
                  ∧ column_target field_object = Some x)
    ∧ (∀ item field_object d,
         item ∈ items →
         fields_map model !! item.1 = Some (ColumnField field_object) →
         truthy (description field_object) = Some d →
         COLUMN_COMMENT_TEMPLATE (table_name_of model) item.2
           (_escape_comment d) ∈ comments_array g')
    ∧ ∃ new,
        comments_array g' = comments_array g ++ new
        ∧ Forall (λ c, ∃ item, item ∈ items ∧ column_comment model item c)
            new.
Proof.
  induction items as [|[field_name column_name] items IH];
    intros acc g columns g'; simpl.
  - intros [-> ->]%ret_Ok. split; [done|]. split.
    { exists []. by rewrite app_nil_r. }
    split; [set_solver|]. split; [set_solver|].
    exists []. by rewrite app_nil_r.
  - intros (acc1 & g1 & Hx & Hrest)%bind_Ok.
    apply render_column_Ok in Hx as (f & d & Hf & Hd & -> & ->).
    destruct (IH _ _ _ _ Hrest)
      as (Hnames & (entries & Hentries & Hall) & Hrefs & Hin & new & Hc & Hnew).
    destruct (column_state_comments model (field_name, column_name) f g Hf)
      as (Hnames0 & Hin0 & new0 & Hc0 & Hnew0).
    simpl in *. split; [congruence|]. split.
    { eexists (_ :: entries). split.
      - rewrite Hentries. simpl. by rewrite <- app_assoc.
      - constructor; [|done]. by exists f, d. }
    split.
    { intros x. rewrite Hrefs. simpl. split.
      - intros [Hx|(item & fo & Hitem & Hfo & Hx)].
        + destruct (column_target f) as [target|] eqn:Htarget; [|by left].
          apply elem_of_union in Hx as [Hx|Hx]; [by left|].
          apply elem_of_singleton in Hx as ->. right.
          exists (field_name, column_name), f. set_solver.
        + right. exists item, fo. set_solver.
      - intros [Hx|(item & fo & [->|Hitem]%elem_of_cons & Hfo & Hx)].
        + left. destruct (column_target f); set_solver.
        + left. simpl in Hfo. rewrite Hf in Hfo. injection Hfo as <-.
          rewrite Hx. set_solver.
        + right. by exists item, fo. }
    split.
    { intros item fo d' [->|Hitem]%elem_of_cons Hfo Hd'.
      - simpl in *. rewrite Hf in Hfo. injection Hfo as <-.
        rewrite Hc. apply elem_of_app. left. by apply Hin0.
      - by eapply Hin. }
    exists (new0 ++ new). split; [by rewrite Hc, Hc0, app_assoc|].
    apply Forall_app. split.
    + eapply Forall_impl; [done|]. intros c Hc'.
      exists (field_name, column_name). set_solver.
    + eapply Forall_impl; [done|]. intros c (item & Hitem & Hc').
      exists item. set_solver.
Qed.

End columns.

(** ** References and the order of the tables *)

Section references.
Context `{B : BaseSchemaGenerator} `{R : Runtime}.

(** The references of a rendered table are the tables its reference
    columns point to; whether the reference asks for a database
    constraint plays no part. *)
Theorem references_of_a_table (model : Model) (safe : bool)
    (g g' : Generator) (t : TableSql) :
  _get_table_sql model safe g = (Ok t, g') →
  ∀ x, x ∈ references t
       ↔ ∃ item field_object,
           item ∈ fields_db_projection model
           ∧ fields_map model !! item.1 = Some (ColumnField field_object)
           ∧ column_target field_object = Some x.
Proof.
  intros (columns & g1 & uniq & idx & Hcolumns & _ & _ & _ & _ & _ & _ & _
          & Hrefs)%get_table_sql_Ok x.
  apply render_columns_Ok in Hcolumns as (_ & _ & Hin & _).
  rewrite Hrefs, Hin. simpl. set_solver.
Qed.

(** A reference without a database constraint still gives its column,
    and the column carries no [REFERENCES] clause. *)
Theorem unconstrained_reference_column (model : Model) (safe : bool)
    (g g' : Generator) (t : TableSql) (item : string * string)
    (field_object : Field) (r : ForeignKeyFieldInstance) :
  _get_table_sql model safe g = (Ok t, g') →
  item ∈ fields_db_projection model →
  fields_map model !! item.1 = Some (ColumnField field_object) →
  generated_pk_sql field_object = None →
  reference field_object = Some r →
  fk_db_constraint r = false →
  ∃ default fields_to_create field_indexes_sqls comments,
    column_default model item.2 field_object = Ok default
    ∧ column_definition item.2 field_object default +:+ ""
      ∈ fields_to_create
    ∧ table_creation_string t
      = join nl (create_statement model safe fields_to_create
                 :: field_indexes_sqls)
        +:+ hook_text comments.
Proof.
  intros (columns & g1 & uniq & idx & Hcolumns & _ & _ & Hstring & _)%get_table_sql_Ok
    Hitem Hf Hpk Hr Hfree.
  apply render_columns_Ok in Hcolumns
    as (_ & (entries & Hentries & Hall) & _).
  simpl in Hentries.
  destruct (proj1 (list_elem_of_lookup _ _) Hitem) as [i Hi].
  destruct (Forall2_lookup_l _ _ _ _ _ Hall Hi)
    as (entry & Hentry & f & d & [Hf' Hd] & ->).
  rewrite Hf in Hf'. injection Hf' as <-.
  exists d. eexists _, idx, _. split; [done|]. split; [|done].
  rewrite Hentries. apply elem_of_app. left.
  apply list_elem_of_lookup. exists i. rewrite Hentry. f_equal.
  unfold column_entry, fk_clause. by rewrite Hpk, Hr, Hfree.
Qed.

(** In a script that is returned the tables stand in an order in which
    every table comes after the tables it has recorded as references,
    itself apart; the table names are then pairwise distinct. *)
Theorem tables_in_dependency_order (safe : bool) (g g' : Generator)
    (script : string) :
  comments_array g = [] →
  get_create_schema_sql safe g = (Ok script, g') →
  ∃ tables placed,
    Forall2 (rendered safe) _get_models_to_create tables
    ∧ placed ≡ₚ tables
    ∧ NoDup (map table placed)
    ∧ script = script_of safe (schema_names g') placed
    ∧ ∀ before t after,
        placed = before ++ t :: after →
        ∀ x, x ∈ references t → x ≠ table t →
             ∃ u, u ∈ before ∧ table u = x.
Proof.
  intros Hempty (tables & placed & Htables & _ & Hperm & Hnodup & Horder
                 & ->)%get_create_schema_sql_Ok; [|done].
  exists tables, placed. repeat split; try done.
  intros before t after Heq x Hx Hne.
  specialize (Horder before t after Heq x Hx).
  apply elem_of_union in Horder as [Hin|Hin]; [|set_solver].
  apply elem_of_list_to_set, list_elem_of_fmap in Hin as (u & -> & Hu).
  by exists u.
Qed.

(** When every model renders, the table names are distinct, every
    recorded reference names a table of the models, and the references
    of a table to other tables descend along a rank, a script is
    returned. *)
Theorem acyclic_references_give_a_script (safe : bool) (g : Generator)
    (tables : list TableSql) (rank : string → nat) :
  comments_array g = [] →
  Forall2 (rendered safe) _get_models_to_create tables →
  NoDup (map table tables) →
  (∀ t x, t ∈ tables → x ∈ references t → x ∈ map table tables) →
  (∀ t x, t ∈ tables → x ∈ references t → x ≠ table t →
          rank x < rank (table t)) →
  ∃ script, (get_create_schema_sql safe g).1 = Ok script.
Proof.
  intros Hempty Htables Hnodup Hclosed Hrank.
  rewrite (get_create_schema_sql_run safe g tables Hempty Htables). simpl.
  destruct (run_acyclic tables rank Hnodup Hclosed Hrank (length tables)
              (start tables) [] eq_refl (placed_start tables)) as [st Hst].
  unfold order_tables. change (while_true _ _ _) with
    (run (length tables) (start tables)).
  rewrite Hst. by eexists.
Qed.

End references.

Lemma and_then (P Q : Prop) : P → (P → Q) → P ∧ Q.
Proof. tauto. Qed.

(** C3.  A reference without a database constraint is recorded among the
    references of its table all the same: the table [a], whose column
    [b_id] refers to [b] without a constraint, has [b] in its references,
    though the column carries no [REFERENCES] clause. *)
Lemma unconstrained_reference_is_recorded :
  ∃ t,
    _get_table_sql (B:=simple_base [left_model false]) (R:=insertion_order)
      (left_model false) true init = (Ok t, init)
    ∧ references t = {[ "b" ]}
    ∧ fk_clause (B:=simple_base [left_model false]) (left_model false)
        "b_id" (fk_column (model_ref None "b") false) = "".
Proof.
  eexists. split; [vm_compute; reflexivity|]. split; by vm_compute.
Qed.

(** C1.  Two tables that refer to each other without a database
    constraint have no constrained reference at all, and yet the
    generator rejects them as cyclic. *)
Lemma unconstrained_cycle_is_rejected :
  get_create_schema_sql
    (B:=simple_base [left_model false; right_model false])
    (R:=insertion_order) true init
  = (Raise (ConfigurationError "Can't create schema due to cyclic fk references"),
     init)
  ∧ fk_clause (B:=simple_base [left_model false; right_model false])
      (left_model false) "b_id" (fk_column (model_ref None "b") false) = ""
  ∧ fk_clause (B:=simple_base [left_model false; right_model false])
      (right_model false) "a_id" (fk_column (model_ref None "a") false) = "".
Proof. repeat split; by vm_compute. Qed.

(** Nor are two tables of one name in two namespaces told apart: the
    set of created tables holds bare table names, so it never grows as
    large as the number of tables, and the tables [log] of the namespaces
    [audit] and [app], which have no reference at all, are rejected as
    cyclic. *)
Lemma same_name_in_two_namespaces_is_rejected :
  get_create_schema_sql
    (B:=simple_base [log_model "audit"; log_model "app"])
    (R:=insertion_order) true init
  = (Raise (ConfigurationError "Can't create schema due to cyclic fk references"),
     {| comments_array := []; schema_names := ["audit"; "app"] |}).
Proof. by vm_compute. Qed.

Lemma references_of_a_table_witness :
  ∃ t,
    _get_table_sql (B:=simple_base [left_model false]) (R:=insertion_order)
      (left_model false) true init = (Ok t, init)
    ∧ ("b" ∈ references t
       ↔ ∃ item field_object,
           item ∈ fields_db_projection (left_model false)
           ∧ fields_map (left_model false) !! item.1
             = Some (ColumnField field_object)
           ∧ column_target field_object = Some "b").
Proof.
  eexists. apply and_then.
  - vm_compute. reflexivity.
  - intros Hrun.
    exact (references_of_a_table (B:=simple_base [left_model false])
             (R:=insertion_order) _ _ _ _ _ Hrun "b").
Defined.

Lemma unconstrained_reference_column_witness :
  ∃ t,
    _get_table_sql (B:=simple_base [left_model false]) (R:=insertion_order)
      (left_model false) true init = (Ok t, init)
    ∧ ∃ default fields_to_create field_indexes_sqls comments,
        column_default (R:=insertion_order) (left_model false) "b_id"
          (fk_column (model_ref None "b") false) = Ok default
        ∧ column_definition (B:=simple_base [left_model false]) "b_id"
            (fk_column (model_ref None "b") false) default +:+ ""
          ∈ fields_to_create
        ∧ table_creation_string t
          = join nl (create_statement (B:=simple_base [left_model false])
                       (left_model false) true fields_to_create
                     :: field_indexes_sqls)
            +:+ hook_text comments.
Proof.
  eexists. apply and_then.
  - vm_compute. reflexivity.
  - intros Hrun.
    refine (unconstrained_reference_column
              (B:=simple_base [left_model false]) (R:=insertion_order)
              _ _ _ _ _ ("b_id", "b_id") _ _ Hrun _ _ _ _ _).
    + set_solver.
    + vm_compute. reflexivity.
    + reflexivity.
    + reflexivity.
    + reflexivity.
Defined.

Lemma tables_in_dependency_order_witness :
  ∃ script g',
    get_create_schema_sql (B:=simple_base [player_model; team_model])
      (R:=insertion_order) true init = (Ok script, g')
    ∧ ∃ tables placed,
        Forall2 (rendered (B:=simple_base [player_model; team_model])
                   (R:=insertion_order) true)
          [player_model; team_model] tables
        ∧ placed ≡ₚ tables
        ∧ NoDup (map table placed)
        ∧ script = script_of (R:=insertion_order) true (schema_names g')
                     placed
        ∧ ∀ before t after,
            placed = before ++ t :: after →
            ∀ x, x ∈ references t → x ≠ table t →
                 ∃ u, u ∈ before ∧ table u = x.
Proof.
  eexists _, _. apply and_then.
  - vm_compute. reflexivity.
  - intros Hrun.
    exact (tables_in_dependency_order
             (B:=simple_base [player_model; team_model])
             (R:=insertion_order) true init _ _ eq_refl Hrun).
Defined.

Lemma acyclic_references_give_a_script_witness :
  ∃ script,
    (get_create_schema_sql (B:=simple_base [player_model; team_model])
       (R:=insertion_order) true init).1 = Ok script.
Proof.
  eapply (acyclic_references_give_a_script
            (B:=simple_base [player_model; team_model])
            (R:=insertion_order) true init _ example_rank).
  - reflexivity.
  - repeat econstructor; unfold rendered; vm_compute; reflexivity.
  - simpl. repeat constructor; set_solver.
  - intros t x Ht Hx. simpl.
    repeat (apply elem_of_cons in Ht as [->|Ht]); [| |by apply elem_of_nil in Ht];
      apply elem_of_elements in Hx; vm_compute in Hx;
      repeat (apply elem_of_cons in Hx as [->|Hx]);
      try (by apply elem_of_nil in Hx); set_solver.
  - intros t x Ht Hx Hne.
    repeat (apply elem_of_cons in Ht as [->|Ht]); [| |by apply elem_of_nil in Ht];
      apply elem_of_elements in Hx; vm_compute in Hx;
      repeat (apply elem_of_cons in Hx as [->|Hx]);
      try (by apply elem_of_nil in Hx); by vm_compute.
Defined.

(** ** Column defaults *)

Section defaults.
Context `{B : BaseSchemaGenerator} `{R : Runtime}.

(** C9.  A default that is a callable, or the default of a UUID, text or
    JSON field, gives the empty default fragment, and so does a default
    whose rendering raises [NotImplementedError]; the round of the column
    loop goes on to its end with that fragment, raising nothing. *)
Theorem unsupported_default_is_dropped (model : Model)
    (item : string * string) (field_object : Field) :
  fields_map model !! item.1 = Some (ColumnField field_object) →
  (callable (default_value field_object) = true
   ∨ non_inlinable (field_class field_object) = true
   ∨ ∃ v, to_db_value field_object (default_value field_object) model = Ok v
          ∧ _escape_default_value v = Raise NotImplementedError) →
  column_default model item.2 field_object = Ok ""
  ∧ ∀ acc g,
      render_column model acc item g
      = (Ok (column_acc model acc item.2 field_object ""),
         column_state model item.2 field_object g).
Proof.
  intros Hf Hcase.
  assert (column_default model item.2 field_object = Ok "") as Hd.
  { unfold column_default.
    destruct (is_not_None _ || auto_now _ || auto_now_add _); [|done].
    destruct Hcase as [->|[->|(v & -> & Hv)]]; simpl.
    - done.
    - by rewrite orb_true_r.
    - destruct (callable _ || non_inlinable _); [done|]. by rewrite Hv. }
  split; [done|]. intros acc g. destruct item as [field_name column_name].
  by apply render_column_eval.
Qed.


End defaults.

Lemma unsupported_default_is_dropped_witness :
  column_default (R:=insertion_order) event_model "token" token_column
  = Ok ""
  ∧ ∀ acc g,
      render_column (B:=simple_base [event_model]) (R:=insertion_order)
        event_model acc ("token", "token") g
      = (Ok (column_acc (B:=simple_base [event_model]) event_model acc
               "token" token_column ""),
         column_state (B:=simple_base [event_model]) event_model "token"
           token_column g).
Proof.
  apply (unsupported_default_is_dropped (B:=simple_base [event_model])
           (R:=insertion_order) event_model ("token", "token") token_column).
  - vm_compute. reflexivity.
  - left. reflexivity.
Defined.



(** ** Comments and join tables *)

Section comments.
Context `{B : BaseSchemaGenerator} `{R : Runtime}.

(** Whether the many-to-many field named [m2m_field] gets a join-table
    statement. *)
Definition m2m_field_emitted (model : Model) (models_tables : list string)
    (m2m_field : string) : bool :=
  match fields_map model !! m2m_field with
  | Some (M2MField field_object) => m2m_emitted models_tables field_object
  | _ => false
  end.

(** The statement of the join table of the field named [m2m_field], with
    its own comment. *)
Definition join_table_of (model : Model) (safe : bool) (m2m_field : string)
    (s : string) : Prop :=
  ∃ field_object,
    fields_map model !! m2m_field = Some (M2MField field_object)
    ∧ s = m2m_create_string model safe field_object ""
          +:+ hook_text (m2m_comments model field_object).

(** The loop over the many-to-many fields, from an empty collector: one
    statement for every field that is emitted, none for the others, and
    the collector is empty again after each. *)
Lemma render_m2ms_Ok (model : Model) (safe : bool)
    (models_tables : list string) (names : list string) :
  ∀ acc g acc' g',
    comments_array g = [] →
    foldM (render_m2m model safe models_tables) acc names g = (Ok acc', g') →
    g' = g
    ∧ ∃ new,
        acc' = acc ++ new
        ∧ Forall2 (join_table_of model safe)
            (filter (λ name,
                       m2m_field_emitted model models_tables name = true)
               names)
            new.
Proof.
  induction names as [|name names IH]; intros acc g acc' g' Hempty; simpl.
  - intros [-> ->]%ret_Ok. split; [done|]. exists [].
    by rewrite app_nil_r.
  - intros (acc1 & g1 & (f & Hf & Hcase)%render_m2m_Ok & Hrest)%bind_Ok.
    assert (m2m_field_emitted model models_tables name
            = m2m_emitted models_tables f) as Hname
      by (unfold m2m_field_emitted; by rewrite Hf).
    rewrite filter_cons.
    destruct (m2m_emitted models_tables f) eqn:Hemitted.
    + destruct Hcase as [-> ->].
      assert (with_comments [] g = g) as Hg
        by (destruct g; simpl in *; by subst).
      rewrite Hg in Hrest.
      destruct (IH _ _ _ _ Hempty Hrest) as [-> (new & -> & Hnew)].
      split; [done|]. eexists (_ :: new).
      split; [by rewrite <- app_assoc|].
      rewrite decide_True by done. constructor; [|done].
      exists f. by rewrite Hempty.
    + destruct Hcase as [-> ->].
      destruct (IH _ _ _ _ Hempty Hrest) as [-> (new & -> & Hnew)].
      split; [done|]. exists new. split; [done|].
      by rewrite decide_False by congruence.
Qed.

(** C6, as amended.  The text of a table rendered from an empty collector
    is its [CREATE TABLE] statement, then its index statements, then its
    comment statements: the comments come after the statement of their
    own table, with the index statements in between, and before anything
    of another table.  Every comment in it is a comment on a column of
    this table or on the table; the comment of every described column
    and of a described table is there; each join table carries its own
    comment; and the collector is empty again at the end. *)
Theorem comments_follow_their_table (model : Model) (safe : bool)
    (g g' : Generator) (t : TableSql) :
  comments_array g = [] →
  _get_table_sql model safe g = (Ok t, g') →
  ∃ fields_to_create field_indexes_sqls comments,
    table_creation_string t
    = join nl (create_statement model safe fields_to_create
               :: field_indexes_sqls)
      +:+ hook_text comments
    ∧ Forall (λ c, (∃ item, item ∈ fields_db_projection model
                            ∧ column_comment model item c)
                   ∨ c ∈ table_comments model) comments
    ∧ (∀ item field_object d,
         item ∈ fields_db_projection model →
         fields_map model !! item.1 = Some (ColumnField field_object) →
         truthy (description field_object) = Some d →
         COLUMN_COMMENT_TEMPLATE (table_name_of model) item.2
           (_escape_comment d) ∈ comments)
    ∧ (∀ d, truthy (table_description model) = Some d →
            TABLE_COMMENT_TEMPLATE (table_name_of model) (_escape_comment d)
            ∈ comments)
    ∧ Forall2 (join_table_of model safe)
        (filter (λ name,
                   m2m_field_emitted model
                     (map db_table _get_models_to_create) name = true)
           (m2m_fields model))
        (m2m_tables t)
    ∧ comments_array g' = [].
Proof.
  intros Hempty Hrun.
  pose proof (get_table_sql_flushed _ _ _ _ _ Hrun) as Hflushed.
  apply get_table_sql_Ok in Hrun
    as (columns & g1 & uniq & idx & Hcolumns & _ & _ & Hstring & Hm2m & _).
  apply render_columns_Ok in Hcolumns
    as (_ & _ & _ & Hin & new & Hc & Hnew).
  rewrite Hempty in Hc. simpl in Hc.
  apply render_m2ms_Ok in Hm2m as [_ (m2m & Hm2m & Hall)]; [|done].
  simpl in Hm2m. subst m2m.
  eexists _, idx, _. split; [exact Hstring|].
  split.
  { apply Forall_app. split.
    - rewrite Hc. eapply Forall_impl; [done|]. intros c ?. by left.
    - apply Forall_forall. intros c ?. by right. }
  split.
  { intros item f d Hitem Hf Hd. apply elem_of_app. left.
    by eapply Hin. }
  split.
  { intros d Hd. apply elem_of_app. right. unfold table_comments.
    rewrite Hd. set_solver. }
  done.
Qed.

End comments.

(** C6 as stated fails: the comments of the table [note] do not come
    right after its [CREATE TABLE] statement; the statement of the index
    on [title] stands between them. *)
Lemma index_before_comments :
  ∃ t create,
    _get_table_sql (B:=simple_base [note_model]) (R:=insertion_order)
      note_model false init = (Ok t, init)
    ∧ create = create_statement (B:=simple_base [note_model]) note_model
                 false
                 [GENERATED_PK_TEMPLATE "id" "SERIAL NOT NULL PRIMARY KEY";
                  FIELD_TEMPLATE "title" "VARCHAR(40)" "NOT NULL" "" false
                    "" ""]
    ∧ table_creation_string t
      = join nl
          [create;
           _get_index_sql (B:=simple_base [note_model]) note_model
             ["title"] false;
           COLUMN_COMMENT_TEMPLATE (dq +:+ "note" +:+ dq) "title"
             "What''s up";
           TABLE_COMMENT_TEMPLATE (dq +:+ "note" +:+ dq) "Notes"]
    ∧ table_creation_string t
      ≠ join nl
          [create;
           COLUMN_COMMENT_TEMPLATE (dq +:+ "note" +:+ dq) "title"
             "What''s up";
           TABLE_COMMENT_TEMPLATE (dq +:+ "note" +:+ dq) "Notes"].
Proof.
  eexists _, _. split; [vm_compute; reflexivity|].
  split; [reflexivity|]. split; by vm_compute.
Qed.

Lemma comments_follow_their_table_witness :
  ∃ t,
    _get_table_sql (B:=simple_base [note_model]) (R:=insertion_order)
      note_model false init = (Ok t, init)
    ∧ ∃ fields_to_create field_indexes_sqls comments,
        table_creation_string t
        = join nl (create_statement (B:=simple_base [note_model])
                     note_model false fields_to_create
                   :: field_indexes_sqls)
          +:+ hook_text comments
        ∧ Forall (λ c, (∃ item, item ∈ fields_db_projection note_model
                                ∧ column_comment
                                    (B:=simple_base [note_model])
                                    note_model item c)
                       ∨ c ∈ table_comments (B:=simple_base [note_model])
                               note_model) comments
        ∧ (∀ item field_object d,
             item ∈ fields_db_projection note_model →
             fields_map note_model !! item.1
             = Some (ColumnField field_object) →
             truthy (description field_object) = Some d →
             COLUMN_COMMENT_TEMPLATE
               (table_name_of note_model) item.2
               (_escape_comment (BaseSchemaGenerator:=simple_base [note_model]) d)
             ∈ comments)
        ∧ (∀ d, truthy (table_description note_model) = Some d →
                TABLE_COMMENT_TEMPLATE (table_name_of note_model)
                  (_escape_comment
                     (BaseSchemaGenerator:=simple_base [note_model]) d)
                ∈ comments)
        ∧ Forall2 (join_table_of (B:=simple_base [note_model])
                     (R:=insertion_order) note_model false)
            (filter (λ name,
                       m2m_field_emitted note_model
                         (map db_table [note_model]) name = true)
               (m2m_fields note_model))
            (m2m_tables t)
        ∧ comments_array init = [].
Proof.
  eexists. apply and_then.
  - vm_compute. reflexivity.
  - intros Hrun.
    exact (comments_follow_their_table (B:=simple_base [note_model])
             (R:=insertion_order) note_model false init init _ eq_refl Hrun).
Defined.

(** ** Join tables that are declared entities *)

Section join_tables.
Context `{B : BaseSchemaGenerator} `{R : Runtime}.

Lemma rendered_table (safe : bool) (model : Model) (t : TableSql) :
  rendered safe model t →
  table t = db_table model
  ∧ table_model t = model
  ∧ Forall2 (join_table_of model safe)
      (filter (λ name,
                 m2m_field_emitted model
                   (map db_table _get_models_to_create) name = true)
         (m2m_fields model))
      (m2m_tables t).
Proof.
  intros (columns & g1 & uniq & idx & Hcolumns & _ & _ & _ & Hm2m & Htable
          & _ & Hmodel & _)%get_table_sql_Ok.
  apply render_columns_Ok in Hcolumns as (_ & _ & _ & _ & new & Hc & _).
  apply render_m2ms_Ok in Hm2m as [_ (m2m & Hm2m & Hall)]; [|done].
  simpl in Hm2m. by subst m2m.
Qed.

End join_tables.

(** ** The layout of the script *)

Section layout.
Context `{B : BaseSchemaGenerator} `{R : Runtime}.

Lemma is_public_other (n : string) : n ≠ "public" → is_public n = false.
Proof.
  intros Hne. destruct (is_public n) eqn:Hn; [|done].
  by apply is_public_eq in Hn.
Qed.

(** C5, as amended.  A script returned by a new generator is made of the
    namespace statements, then the table statements, then the join-table
    statements, joined by newlines.  There is one namespace statement
    for each namespace of the models that is not the object [public]
    (so one for every name other than [public], none for a model
    without a namespace), each once, in the order in which the set
    [schema_names] is iterated, which need not be the order of
    discovery.  The tables stand in the order in which the loop placed
    them, every table after the tables it refers to, and the join-table
    statements follow in the order of the tables that own them.  So the
    statement of every table in a namespace other than [public] has the
    statement of the namespace before it. *)
Theorem script_layout (safe : bool) (g' : Generator) (script : string) :
  get_create_schema_sql safe init = (Ok script, g') →
  ∃ names tables placed,
    script
    = join nl (map (SCHEMA_CREATION_TEMPLATE (exists_ safe)) names
               ++ map table_creation_string placed
               ++ concat (map m2m_tables placed))
    ∧ names = filter (λ n, is_public n = false) (schema_names g')
    ∧ NoDup names
    ∧ (∀ n, n ∈ names
            ↔ is_public n = false
              ∧ ∃ model, model ∈ _get_models_to_create
                         ∧ schema model = Some n)
    ∧ Forall2 (rendered safe) _get_models_to_create tables
    ∧ placed ≡ₚ tables
    ∧ in_dependency_order placed
    ∧ ∀ t n, t ∈ placed → table_schema t = Some n → n ≠ "public" →
             n ∈ names.
Proof.
  intros (tables & placed & Htables & Hg' & Hperm & _ & Horder
          & ->)%get_create_schema_sql_Ok; [|done].
  assert (∀ n, n ∈ schema_names g'
               ↔ ∃ model, model ∈ _get_models_to_create
                          ∧ schema model = Some n) as Hnames.
  { intros n. rewrite Hg'. simpl. rewrite elem_of_names_after. set_solver. }
  assert (∀ n, n ∈ filter (λ n, is_public n = false) (schema_names g')
               ↔ is_public n = false
                 ∧ ∃ model, model ∈ _get_models_to_create
                            ∧ schema model = Some n) as Hfiltered.
  { intros n. by rewrite list_elem_of_filter, Hnames. }
  exists (filter (λ n, is_public n = false) (schema_names g')), tables, placed.
  split; [done|]. split; [done|]. split.
  { apply NoDup_filter. rewrite Hg'. simpl. apply NoDup_names_after.
    constructor. }
  split; [done|]. split; [done|]. split; [done|]. split; [done|].
  intros t n Ht Hn Hne. apply Hfiltered.
  split; [by apply is_public_other|].
  rewrite Hperm in Ht.
  destruct (proj1 (list_elem_of_lookup _ _) Ht) as [i Hi].
  destruct (Forall2_lookup_r _ _ _ _ _ Htables Hi) as (m & Hm & Hrendered).
  apply get_table_sql_Ok in Hrendered
    as (? & ? & ? & ? & _ & _ & _ & _ & _ & _ & Hschema & _).
  exists m. split; [by eapply list_elem_of_lookup_2|]. congruence.
Qed.

End layout.

(** C5 as stated fails where the interpreter iterates the set of
    namespaces in another order than the order of discovery (CPython
    goes through the slots of a hash table, and the hash of a string
    changes from one process to the next): the models are met in the
    order [people], [sport], the script creates [sport] first. *)
Lemma namespaces_not_in_discovery_order :
  ∃ script g',
    get_create_schema_sql (B:=simple_base [player_model; team_model])
      (R:=newest_first) false init = (Ok script, g')
    ∧ first_discovery [player_model; team_model] = ["people"; "sport"]
    ∧ create_schemas_sql (R:=newest_first) false (schema_names g')
      = [SCHEMA_CREATION_TEMPLATE "" "sport";
         SCHEMA_CREATION_TEMPLATE "" "people"]
    ∧ create_schemas_sql (R:=newest_first) false (schema_names g')
      ≠ map (SCHEMA_CREATION_TEMPLATE "")
          (first_discovery [player_model; team_model]).
Proof.
  eexists _, _. split; [vm_compute; reflexivity|].
  split; [by vm_compute|]. split; by vm_compute.
Qed.

Lemma script_layout_witness :
  ∃ script g',
    get_create_schema_sql (B:=simple_base [player_model; team_model])
      (R:=newest_first) false init = (Ok script, g')
    ∧ ∃ names tables placed,
        script
        = join nl (map (SCHEMA_CREATION_TEMPLATE (exists_ false)) names
                   ++ map table_creation_string placed
                   ++ concat (map m2m_tables placed))
        ∧ names = filter (λ n, is_public (Runtime:=newest_first) n = false)
                    (schema_names g')
        ∧ NoDup names
        ∧ (∀ n, n ∈ names
                ↔ is_public (Runtime:=newest_first) n = false
                  ∧ ∃ model, model ∈ [player_model; team_model]
                             ∧ schema model = Some n)
        ∧ Forall2 (rendered (B:=simple_base [player_model; team_model])
                     (R:=newest_first) false)
            [player_model; team_model] tables
        ∧ placed ≡ₚ tables
        ∧ in_dependency_order placed
        ∧ ∀ t n, t ∈ placed → table_schema t = Some n → n ≠ "public" →
                 n ∈ names.
Proof.
  eexists _, _. apply and_then.
  - vm_compute. reflexivity.
  - intros Hrun.
    exact (script_layout (B:=simple_base [player_model; team_model])
             (R:=newest_first) false _ _ Hrun).
Defined.

(** * Further properties *)

(** ** What the ordering loop can end in *)

Lemma while_true_Raise (fuel count : nat) (st : Ordering) (e : exn) :
  while_true fuel count st = Raise e →
  e = ConfigurationError cyclic_message ∨ e = OutOfFuel.
Proof.
  revert st. induction fuel as [|fuel IH]; intros st; simpl.
  - intros [= <-]. by right.
  - destruct (loop_body count st) as [| |st']; [done| |apply IH].
    intros [= <-]. by left.
Qed.

Lemma order_tables_Raise (tables : list TableSql) (e : exn) :
  order_tables tables = Raise e → e = ConfigurationError cyclic_message.
Proof.
  intros Hrun. pose proof (order_tables_total tables) as Htotal.
  apply while_true_Raise in Hrun as Hcase.
  destruct Hcase as [->| ->]; [done|]. by rewrite Hrun in Htotal.
Qed.

(** The place of [x] in [l]: the number of elements before its first
    occurrence. *)
Fixpoint position (x : string) (l : list string) : nat :=
  match l with
  | [] => 0
  | y :: l' => if decide (y = x) then 0 else S (position x l')
  end.

Lemma position_app_l (x : string) (l1 l2 : list string) :
  x ∈ l1 → position x (l1 ++ l2) < length l1.
Proof.
  induction l1 as [|y l1 IH]; simpl; [by intros ?%elem_of_nil|].
  intros [->|Hx]%elem_of_cons.
  - rewrite decide_True by done. lia.
  - case_decide; [lia|]. specialize (IH Hx). lia.
Qed.

Lemma position_middle (x : string) (l1 l2 : list string) :
  x ∉ l1 → position x (l1 ++ x :: l2) = length l1.
Proof.
  induction l1 as [|y l1 IH]; simpl.
  - intros _. by rewrite decide_True.
  - intros [Hne Hx]%not_elem_of_cons. rewrite decide_False by done.
    by rewrite IH.
Qed.

(** The loop places every table exactly when the table names are
    distinct and the references to other tables name tables of the list
    and descend along some rank. *)
Lemma order_tables_Ok_iff (tables : list TableSql) :
  (∃ st, order_tables tables = Ok st)
  ↔ NoDup (map table tables)
    ∧ ∃ rank : string → nat,
        ∀ t x, t ∈ tables → x ∈ references t → x ≠ table t →
               x ∈ map table tables ∧ rank x < rank (table t).
Proof.
  split.
  - intros [st (placed & Hperm & Hnodup & Horder & _)%order_tables_Ok].
    split; [by rewrite <- Hperm|].
    exists (λ x, position x (map table placed)).
    intros t x Ht Hx Hne. rewrite <- Hperm in Ht.
    apply list_elem_of_split in Ht as (before & after & ->).
    specialize (Horder before t after eq_refl x Hx).
    apply elem_of_union in Horder as [Hin|Hin]; [|set_solver].
    apply elem_of_list_to_set in Hin.
    rewrite map_app in Hnodup |- *. simpl in *.
    apply NoDup_app in Hnodup as (_ & Hbefore & _).
    split.
    + rewrite <- Hperm, map_app. apply elem_of_app. by left.
    + rewrite position_middle; [|intros Hin'; eapply Hbefore; [done|set_solver]].
      by apply position_app_l.
  - intros [Hnodup [rank Hrank]].
    apply (run_acyclic tables rank Hnodup
             (λ t x Ht Hx,
                match decide (x = table t) with
                | left Heq =>
                    eq_ind_r (λ y, y ∈ map table tables)
                      (proj2 (list_elem_of_fmap _ _ _)
                         (ex_intro _ t (conj eq_refl Ht))) Heq
                | right Hne => proj1 (Hrank t x Ht Hx Hne)
                end)
             (λ t x Ht Hx Hne, proj2 (Hrank t x Ht Hx Hne))
             (length tables) (start tables) [] eq_refl (placed_start tables)).
Qed.

(** Tables that are declared in an order in which each one comes after
    the tables it refers to are placed in the order of declaration: the
    loop takes the first table of the list in every round. *)
Lemma run_in_declaration_order (tables : list TableSql) :
  NoDup (map table tables) →
  in_dependency_order tables →
  ∀ pending placed,
    tables = placed ++ pending →
    ∃ st,
      run (length tables)
        {| tables_to_create := pending;
           created_tables := list_to_set (map table placed);
           ordered_tables_for_create := map table_creation_string placed;
           m2m_tables_to_create := concat (map m2m_tables placed) |}
      = Ok st
      ∧ ordered_tables_for_create st = map table_creation_string tables
      ∧ m2m_tables_to_create st = concat (map m2m_tables tables).
Proof.
  intros Hnodup Horder.
  induction pending as [|t pending IH]; intros placed Heq.
  - rewrite app_nil_r in Heq. subst placed. eexists. split.
    + unfold run. simpl. unfold loop_body. simpl.
      by rewrite decide_True by (by rewrite size_list_to_set, length_map).
    + done.
  - assert (placed_so_far tables
              {| tables_to_create := t :: pending;
                 created_tables := list_to_set (map table placed);
                 ordered_tables_for_create :=
                   map table_creation_string placed;
                 m2m_tables_to_create := concat (map m2m_tables placed) |}
              placed) as Hplaced.
    { split; simpl; try done; [by rewrite Heq|].
      intros before u after Hu. apply (Horder before u (after ++ t :: pending)).
      by rewrite Heq, Hu, <- app_assoc. }
    assert (loop_body (length tables)
              {| tables_to_create := t :: pending;
                 created_tables := list_to_set (map table placed);
                 ordered_tables_for_create :=
                   map table_creation_string placed;
                 m2m_tables_to_create := concat (map m2m_tables placed) |}
            = Continue
                {| tables_to_create := pending;
                   created_tables :=
                     list_to_set (map table (placed ++ [t]));
                   ordered_tables_for_create :=
                     map table_creation_string (placed ++ [t]);
                   m2m_tables_to_create :=
                     concat (map m2m_tables (placed ++ [t])) |}) as Hbody.
    { unfold loop_body. simpl.
      pose proof (size_list_to_set_le (map table placed)) as Hle.
      rewrite length_map in Hle.
      rewrite decide_False
        by (rewrite Heq, length_app; simpl; lia).
      assert (placeable (list_to_set (map table placed)) t = true) as ->.
      { apply bool_decide_eq_true_2. by apply (Horder placed t pending). }
      rewrite decide_True by done.
      rewrite !map_app, concat_app, list_to_set_app_L. simpl.
      rewrite app_nil_r. do 2 f_equal. set_solver. }
    rewrite (run_Continue _ _ _ _ _ Hplaced Hbody).
    apply IH. by rewrite Heq, <- app_assoc.
Qed.

(** A check of [in_dependency_order] that runs. *)
Fixpoint dependency_ordered (created : gset string) (l : list TableSql)
    : bool :=
  match l with
  | [] => true
  | t :: l' =>
      placeable created t && dependency_ordered (created ∪ {[ table t ]}) l'
  end.

Lemma dependency_ordered_from (l : list TableSql) :
  ∀ created,
    dependency_ordered created l = true →
    ∀ before t after,
      l = before ++ t :: after →
      references t
      ⊆ created ∪ list_to_set (map table before) ∪ {[ table t ]}.
Proof.
  induction l as [|u l IH]; intros created Hcheck before t after Heq.
  - by destruct before.
  - simpl in Hcheck.
    apply andb_true_iff in Hcheck as [Hu%bool_decide_eq_true_1 Hl].
    destruct before as [|v before]; simplify_eq/=; [set_solver|].
    specialize (IH _ Hl before t after eq_refl). set_solver.
Qed.

Lemma dependency_ordered_sound (l : list TableSql) :
  dependency_ordered ∅ l = true → in_dependency_order l.
Proof.
  intros Hcheck before t after Heq.
  pose proof (dependency_ordered_from l ∅ Hcheck before t after Heq).
  set_solver.
Qed.

Section outcomes.
Context `{B : BaseSchemaGenerator} `{R : Runtime}.

(** Once every model has rendered, the ordering loop ends: the call
    returns a script or raises the error about cyclic references, and
    nothing else. *)
Theorem script_or_cyclic_error (safe : bool) (g : Generator)
    (tables : list TableSql) :
  comments_array g = [] →
  Forall2 (rendered safe) _get_models_to_create tables →
  (∃ script, (get_create_schema_sql safe g).1 = Ok script)
  ∨ (get_create_schema_sql safe g).1
    = Raise (ConfigurationError "Can't create schema due to cyclic fk references").
Proof.
  intros Hempty Htables.
  rewrite (get_create_schema_sql_run safe g tables Hempty Htables). simpl.
  destruct (order_tables tables) as [st|e] eqn:Horder; [left; by eexists|].
  right. by apply order_tables_Raise in Horder as ->.
Qed.

(** Once every model has rendered, a script is returned exactly when the
    table names are pairwise distinct and the references of the tables
    to other tables name tables of the models and are acyclic (descend
    along some rank). *)
Theorem script_iff_distinct_and_acyclic (safe : bool) (g : Generator)
    (tables : list TableSql) :
  comments_array g = [] →
  Forall2 (rendered safe) _get_models_to_create tables →
  (∃ script, (get_create_schema_sql safe g).1 = Ok script)
  ↔ NoDup (map table tables)
    ∧ ∃ rank : string → nat,
        ∀ t x, t ∈ tables → x ∈ references t → x ≠ table t →
               x ∈ map table tables ∧ rank x < rank (table t).
Proof.
  intros Hempty Htables. rewrite <- order_tables_Ok_iff.
  rewrite (get_create_schema_sql_run safe g tables Hempty Htables). simpl.
  destruct (order_tables tables) as [st|e]; split.
  - intros _. by eexists.
  - intros _. by eexists.
  - by intros [? ?].
  - by intros [? ?].
Qed.

(** A reference to a table that is no table of the models for this
    connection, and two models with the same table name, are both
    reported as cyclic references. *)
Theorem unknown_or_repeated_table_is_reported_as_cycle (safe : bool)
    (g : Generator) (tables : list TableSql) :
  comments_array g = [] →
  Forall2 (rendered safe) _get_models_to_create tables →
  (¬ NoDup (map table tables)
   ∨ ∃ t x, t ∈ tables ∧ x ∈ references t ∧ x ∉ map table tables) →
  (get_create_schema_sql safe g).1
  = Raise (ConfigurationError "Can't create schema due to cyclic fk references").
Proof.
  intros Hempty Htables Hbad.
  rewrite (get_create_schema_sql_run safe g tables Hempty Htables). simpl.
  destruct (order_tables tables) as [st|e] eqn:Horder;
    [|by apply order_tables_Raise in Horder as ->].
  exfalso.
  apply order_tables_Ok in Horder as (placed & Hperm & Hnodup & Horder & _).
  destruct Hbad as [Hdup|(t & x & Ht & Hx & Hout)].
  - apply Hdup. by rewrite <- Hperm.
  - rewrite <- Hperm in Ht, Hout.
    apply list_elem_of_split in Ht as (before & after & ->).
    specialize (Horder before t after eq_refl x Hx). apply Hout.
    rewrite map_app. simpl.
    apply elem_of_union in Horder as [Hin|Hin].
    + apply elem_of_list_to_set in Hin. apply elem_of_app. by left.
    + apply elem_of_singleton in Hin as ->. set_solver.
Qed.

(** When the models are declared in an order in which every table comes
    after the tables it refers to, and the table names are distinct, the
    script keeps the order of declaration, for the tables and for the
    join tables. *)
Theorem declaration_order_is_kept (safe : bool) (g : Generator)
    (tables : list TableSql) :
  comments_array g = [] →
  Forall2 (rendered safe) _get_models_to_create tables →
  NoDup (map table tables) →
  in_dependency_order tables →
  get_create_schema_sql safe g
  = (Ok (script_of safe
           (names_after (schema_names g) _get_models_to_create) tables),
     with_schema_names
       (names_after (schema_names g) _get_models_to_create) g).
Proof.
  intros Hempty Htables Hnodup Horder.
  rewrite (get_create_schema_sql_run safe g tables Hempty Htables). simpl.
  destruct (run_in_declaration_order tables Hnodup Horder tables [] eq_refl)
    as (st & Hrun & Hordered & Hm2m).
  unfold order_tables. change (while_true _ _ _) with
    (run (length tables) (start tables)).
  unfold start. simpl in Hrun. rewrite Hrun.
  by rewrite Hordered, Hm2m.
Qed.

End outcomes.

Lemma script_or_cyclic_error_witness :
  (∃ script,
     (get_create_schema_sql
        (B:=simple_base [left_model true; right_model true])
        (R:=insertion_order) true init).1 = Ok script)
  ∨ (get_create_schema_sql
       (B:=simple_base [left_model true; right_model true])
       (R:=insertion_order) true init).1
    = Raise (ConfigurationError "Can't create schema due to cyclic fk references").
Proof.
  eapply (script_or_cyclic_error
            (B:=simple_base [left_model true; right_model true])
            (R:=insertion_order) true init).
  - reflexivity.
  - repeat econstructor; unfold rendered; vm_compute; reflexivity.
Defined.

Lemma script_iff_distinct_and_acyclic_witness :
  ∃ tables,
    Forall2 (rendered (B:=simple_base [player_model; team_model])
               (R:=insertion_order) true)
      [player_model; team_model] tables
    ∧ ((∃ script,
          (get_create_schema_sql (B:=simple_base [player_model; team_model])
             (R:=insertion_order) true init).1 = Ok script)
       ↔ NoDup (map table tables)
         ∧ ∃ rank : string → nat,
             ∀ t x, t ∈ tables → x ∈ references t → x ≠ table t →
                    x ∈ map table tables ∧ rank x < rank (table t)).
Proof.
  eexists. apply and_then.
  - repeat econstructor; unfold rendered; vm_compute; reflexivity.
  - intros Htables.
    exact (script_iff_distinct_and_acyclic
             (B:=simple_base [player_model; team_model])
             (R:=insertion_order) true init _ eq_refl Htables).
Defined.

Lemma unknown_or_repeated_table_is_reported_as_cycle_witness :
  (get_create_schema_sql (B:=simple_base [left_model true])
     (R:=insertion_order) true init).1
  = Raise (ConfigurationError "Can't create schema due to cyclic fk references").
Proof.
  eapply (unknown_or_repeated_table_is_reported_as_cycle
            (B:=simple_base [left_model true]) (R:=insertion_order)
            true init).
  - reflexivity.
  - repeat econstructor; unfold rendered; vm_compute; reflexivity.
  - right. eexists _, "b". split; [apply list_elem_of_here|]. split.
    + apply elem_of_elements. vm_compute. apply list_elem_of_here.
    + vm_compute. by intros [=]%list_elem_of_singleton.
Defined.

Lemma declaration_order_is_kept_witness :
  ∃ tables,
    Forall2 (rendered (B:=simple_base [team_model; player_model])
               (R:=insertion_order) true)
      [team_model; player_model] tables
    ∧ get_create_schema_sql (B:=simple_base [team_model; player_model])
        (R:=insertion_order) true init
      = (Ok (script_of (R:=insertion_order) true
               (names_after (R:=insertion_order) (schema_names init)
                  [team_model; player_model]) tables),
         with_schema_names
           (names_after (R:=insertion_order) (schema_names init)
              [team_model; player_model]) init).
Proof.
  eexists. apply and_then.
  - repeat econstructor; unfold rendered; vm_compute; reflexivity.
  - intros Htables.
    refine (declaration_order_is_kept
              (B:=simple_base [team_model; player_model])
              (R:=insertion_order) true init _ eq_refl Htables _ _).
    + simpl. repeat constructor; set_solver.
    + apply dependency_ordered_sound. vm_compute. reflexivity.
Defined.

(** ** Loops that may raise *)

Lemma rmap_Ok {A B} (f : A → result B) (l : list A) (ys : list B) :
  rmap f l = Ok ys ↔ Forall2 (λ x y, f x = Ok y) l ys.
Proof.
  revert ys. induction l as [|x l IH]; intros ys; simpl.
  - split; [intros [= <-]; constructor|by intros ->%Forall2_nil_inv_l].
  - destruct (f x) as [y|e] eqn:Hx; simpl.
    + destruct (rmap f l) as [ys'|e] eqn:Hl; simpl.
      * split.
        -- intros [= <-]. constructor; [done|]. by apply IH.
        -- intros (y' & ys'' & Hy & Hys & ->)%Forall2_cons_inv_l.
           apply IH in Hys. congruence.
      * split; [done|].
        intros (y' & ys'' & Hy & Hys & ->)%Forall2_cons_inv_l.
        by apply IH in Hys.
    + split; [done|].
      intros (y' & ys'' & Hy & Hys & ->)%Forall2_cons_inv_l. congruence.
Qed.

(** The error of such a loop is the error of the first element that
    raises. *)
Lemma rmap_Raise {A B} (f : A → result B) (l : list A) (e : exn) :
  rmap f l = Raise e
  ↔ ∃ l1 x l2, l = l1 ++ x :: l2
               ∧ Forall (λ y, ∃ b, f y = Ok b) l1
               ∧ f x = Raise e.
Proof.
  induction l as [|x l IH]; simpl.
  - split; [done|]. intros (l1 & y & l2 & Heq & _). by destruct l1.
  - destruct (f x) as [y|e'] eqn:Hx; simpl.
    + destruct (rmap f l) as [ys|e''] eqn:Hl; simpl.
      * split; [done|]. intros (l1 & z & l2 & Heq & Hl1 & Hz).
        destruct l1 as [|? l1]; simplify_eq/=; [congruence|].
        apply Forall_cons in Hl1 as [_ Hl1].
        assert (Ok ys = Raise (A:=list B) e) as [=].
        apply IH. by exists l1, z, l2.
      * split.
        -- intros [= ->]. destruct (proj1 IH eq_refl)
             as (l1 & z & l2 & -> & Hl1 & Hz).
           exists (x :: l1), z, l2. split; [done|]. split; [|done].
           constructor; [by exists y|done].
        -- intros (l1 & z & l2 & Heq & Hl1 & Hz).
           destruct l1 as [|? l1]; simplify_eq/=; [congruence|].
           apply Forall_cons in Hl1 as [_ Hl1]. f_equal.
           assert (Raise (A:=list B) e'' = Raise e) as [=]; [|done].
           apply IH. by exists l1, z, l2.
    + split.
      * intros [= ->]. exists [], x, l. by repeat split.
      * intros (l1 & z & l2 & Heq & Hl1 & Hz).
        destruct l1 as [|? l1]; simplify_eq/=; [congruence|].
        apply Forall_cons in Hl1 as [[b Hb] _]. congruence.
Qed.

(** A loop with an element that raises does raise. *)
Lemma rmap_raises {A B} (f : A → result B) (l : list A) (x : A) (e : exn) :
  x ∈ l → f x = Raise e →
  ∃ e' y, rmap f l = Raise e' ∧ y ∈ l ∧ f y = Raise e'.
Proof.
  intros Hx Hfx. destruct (rmap f l) as [ys|e'] eqn:Hl.
  - apply rmap_Ok in Hl.
    destruct (proj1 (list_elem_of_lookup _ _) Hx) as [i Hi].
    destruct (Forall2_lookup_l _ _ _ _ _ Hl Hi) as (y & _ & Hy). congruence.
  - exists e'. apply rmap_Raise in Hl as (l1 & y & l2 & -> & _ & Hy).
    exists y. split; [done|]. split; [set_solver|done].
Qed.

(** ** [list(dict.fromkeys(l))] *)



Lemma filter_other (y : string) (l : list string) :
  y ∉ l → filter (λ x, x ≠ y) l = l.
Proof.
  induction l as [|x l IH]; [done|].
  intros [Hne Hy]%not_elem_of_cons. rewrite filter_cons.
  rewrite decide_True by done. by rewrite IH.
Qed.

(** A list without repetitions is left as it is. *)
Lemma dict_fromkeys_NoDup (l : list string) :
  NoDup l → dict_fromkeys l = l.
Proof.
  induction 1 as [|y l Hy _ IH]; simpl; [done|].
  by rewrite IH, filter_other.
Qed.

(** ** Fields that the model does not have *)

Section unknown_fields.
Context `{B : BaseSchemaGenerator} `{R : Runtime}.

Lemma source_field_or_Ok (model : Model) (field column : string) :
  source_field_or model field = Ok column →
  is_Some (fields_map model !! field).
Proof.
  unfold source_field_or, fields_map_get.
  by destruct (fields_map model !! field).
Qed.

Lemma source_field_or_Raise (model : Model) (field : string) (e : exn) :
  source_field_or model field = Raise e
  ↔ e = KeyError field ∧ fields_map model !! field = None.
Proof.
  unfold source_field_or, fields_map_get.
  destruct (fields_map model !! field) as [[f|f]|]; simpl; naive_solver.
Qed.

(** A loop over field names raises exactly the [KeyError] of the first
    name that is no field of the model. *)
Lemma source_fields_Raise (model : Model) (fields : list string) (e : exn) :
  rmap (source_field_or model) fields = Raise e →
  ∃ field, field ∈ fields ∧ fields_map model !! field = None
           ∧ e = KeyError field.
Proof.
  intros (l1 & field & l2 & -> & _ & [-> Hnone]%source_field_or_Raise)%rmap_Raise.
  exists field. split; [set_solver|done].
Qed.

Lemma source_fields_Ok (model : Model) (fields columns : list string) :
  rmap (source_field_or model) fields = Ok columns →
  ∀ field, field ∈ fields → is_Some (fields_map model !! field).
Proof.
  intros Hall%rmap_Ok field Hfield.
  destruct (proj1 (list_elem_of_lookup _ _) Hfield) as [i Hi].
  destruct (Forall2_lookup_l _ _ _ _ _ Hall Hi) as (c & _ & Hc).
  by eapply source_field_or_Ok.
Qed.

Lemma render_unique_together_Raise (model : Model) (e : exn) :
  render_unique_together model = Raise e →
  ∃ group field,
    group ∈ unique_together model ∧ field ∈ group
    ∧ fields_map model !! field = None ∧ e = KeyError field.
Proof.
  unfold render_unique_together.
  intros (l1 & group & l2 & Heq & _ & Hgroup)%rmap_Raise.
  destruct (rmap (source_field_or model) group) as [cs|e'] eqn:Hfields;
    [done|].
  simpl in Hgroup. injection Hgroup as ->.
  apply source_fields_Raise in Hfields as (field & Hfield & Hnone & ->).
  exists group, field. split; [rewrite Heq; set_solver|done].
Qed.

Lemma render_unique_together_Ok (model : Model) (constraints : list string) :
  render_unique_together model = Ok constraints →
  ∀ group field,
    group ∈ unique_together model → field ∈ group →
    is_Some (fields_map model !! field).
Proof.
  unfold render_unique_together. intros Hall%rmap_Ok group field Hgroup Hfield.
  destruct (proj1 (list_elem_of_lookup _ _) Hgroup) as [i Hi].
  destruct (Forall2_lookup_l _ _ _ _ _ Hall Hi) as (c & _ & Hc).
  destruct (rmap (source_field_or model) group) as [cs|e] eqn:Hfields;
    [|done].
  by eapply source_fields_Ok.
Qed.

Lemma render_indexes_Ok_fields (model : Model) (safe : bool)
    (fields_with_index statements : list string) :
  render_indexes model safe fields_with_index = Ok statements →
  ∀ fields field,
    IndexFields fields ∈ indexes model → field ∈ fields →
    is_Some (fields_map model !! field).
Proof.
  unfold render_indexes. intros Hrun fields field Hfields Hfield.
  destruct (rmap _ (indexes model)) as [more|e] eqn:Hmore; [|done].
  apply rmap_Ok in Hmore.
  destruct (proj1 (list_elem_of_lookup _ _) Hfields) as [i Hi].
  destruct (Forall2_lookup_l _ _ _ _ _ Hmore Hi) as (c & _ & Hc).
  simpl in Hc.
  destruct (rmap (source_field_or model) fields) as [cs|e] eqn:Hcs; [|done].
  by eapply source_fields_Ok.
Qed.

(** A column loop whose columns all have a field and a default fragment
    goes through. *)
Lemma render_columns_run (model : Model) (items : list (string * string)) :
  Forall (λ item, ∃ field_object default,
                    column_of model item field_object default) items →
  ∀ acc g, ∃ columns g', foldM (render_column model) acc items g
                         = (Ok columns, g').
Proof.
  induction 1 as [|[field_name column_name] items (f & d & Hf & Hd) _ IH];
    intros acc g; cbn [foldM].
  - by eexists _, _.
  - simpl in Hf, Hd. unfold bind.
    rewrite (render_column_eval model acc field_name column_name g f d Hf Hd).
    apply IH.
Qed.

Lemma render_m2ms_fields (model : Model) (safe : bool)
    (models_tables : list string) (names : list string) :
  ∀ acc g acc' g',
    foldM (render_m2m model safe models_tables) acc names g = (Ok acc', g') →
    ∀ name, name ∈ names →
            ∃ field_object,
              fields_map model !! name = Some (M2MField field_object).
Proof.
  induction names as [|n names IH]; intros acc g acc' g'; simpl.
  - intros _ name []%elem_of_nil.
  - intros (acc1 & g1 & (f & Hf & _)%render_m2m_Ok & Hrest)%bind_Ok name
      [->|Hname]%elem_of_cons; [by exists f|].
    by eapply IH.
Qed.

(** A table is returned only for a model whose projection names column
    fields, whose unique-together groups and index tuples name fields of
    the model, and whose many-to-many names are many-to-many fields. *)
Theorem returned_table_knows_its_fields (model : Model) (safe : bool)
    (g g' : Generator) (t : TableSql) :
  _get_table_sql model safe g = (Ok t, g') →
  (∀ item, item ∈ fields_db_projection model →
           ∃ field_object,
             fields_map model !! item.1 = Some (ColumnField field_object))
  ∧ (∀ group field,
       group ∈ unique_together model → field ∈ group →
       is_Some (fields_map model !! field))
  ∧ (∀ fields field,
       IndexFields fields ∈ indexes model → field ∈ fields →
       is_Some (fields_map model !! field))
  ∧ (∀ name, name ∈ m2m_fields model →
             ∃ field_object,
               fields_map model !! name = Some (M2MField field_object)).
Proof.
  intros (columns & g1 & uniq & idx & Hcolumns & Huniq & Hidx & _ & Hm2m
          & _)%get_table_sql_Ok.
  split.
  { apply render_columns_Ok in Hcolumns as (_ & (entries & _ & Hall) & _).
    intros item Hitem.
    destruct (proj1 (list_elem_of_lookup _ _) Hitem) as [i Hi].
    destruct (Forall2_lookup_l _ _ _ _ _ Hall Hi)
      as (entry & _ & f & d & [Hf _] & _).
    by exists f. }
  split; [by eapply render_unique_together_Ok|].
  split; [by eapply render_indexes_Ok_fields|].
  by eapply render_m2ms_fields.
Qed.

End unknown_fields.

(** ** Index statements and comments of a table *)

Section anatomy.
Context `{B : BaseSchemaGenerator} `{R : Runtime}.







(** Whatever the collector holds when [_get_table_sql] starts is flushed
    into the text of the table, in front of the comments of the table:
    comments left behind by a rendering that raised come out with the
    next table that is rendered. *)
Theorem held_comments_are_flushed (model : Model) (safe : bool)
    (g g' : Generator) (t : TableSql) :
  _get_table_sql model safe g = (Ok t, g') →
  ∃ fields_to_create field_indexes_sqls own,
    table_creation_string t
    = join nl (create_statement model safe fields_to_create
               :: field_indexes_sqls)
      +:+ hook_text (comments_array g ++ own)
    ∧ Forall (λ c, (∃ item, item ∈ fields_db_projection model
                            ∧ column_comment model item c)
                   ∨ c ∈ table_comments model) own
    ∧ comments_array g' = [].
Proof.
  intros Hrun.
  pose proof (get_table_sql_flushed _ _ _ _ _ Hrun) as Hflushed.
  apply get_table_sql_Ok in Hrun
    as (columns & g1 & uniq & idx & Hcolumns & _ & _ & Hstring & _).
  apply render_columns_Ok in Hcolumns as (_ & _ & _ & _ & new & Hc & Hnew).
  rewrite Hc, <- app_assoc in Hstring.
  eexists _, idx, _. split; [exact Hstring|]. split; [|done].
  apply Forall_app. split.
  - eapply Forall_impl; [done|]. intros c ?. by left.
  - apply Forall_forall. intros c ?. by right.
Qed.

End anatomy.

Section no_repeats.
Context `{B : BaseSchemaGenerator} `{R : Runtime}.


Lemma column_comment_again (table column comment : string) (g : Generator) :
  _column_comment_generator table column comment
    (_column_comment_generator table column comment g).2
  = _column_comment_generator table column comment g.
Proof.
  unfold _column_comment_generator at 2 3. case_decide as Hin; simpl.
  - unfold _column_comment_generator. by rewrite decide_True.
  - unfold _column_comment_generator. simpl.
    rewrite decide_True by set_solver. done.
Qed.






End no_repeats.

Lemma returned_table_knows_its_fields_witness :
  ∃ t,
    _get_table_sql (B:=simple_base [note_model]) (R:=insertion_order)
      note_model true init = (Ok t, init)
    ∧ ((∀ item, item ∈ fields_db_projection note_model →
                ∃ field_object,
                  fields_map note_model !! item.1
                  = Some (ColumnField field_object))
       ∧ (∀ group field,
            group ∈ unique_together note_model → field ∈ group →
            is_Some (fields_map note_model !! field))
       ∧ (∀ fields field,
            IndexFields fields ∈ indexes note_model → field ∈ fields →
            is_Some (fields_map note_model !! field))
       ∧ (∀ name, name ∈ m2m_fields note_model →
                  ∃ field_object,
                    fields_map note_model !! name
                    = Some (M2MField field_object))).
Proof.
  eexists. apply and_then.
  - vm_compute. reflexivity.
  - intros Hrun.
    exact (returned_table_knows_its_fields (B:=simple_base [note_model])
             (R:=insertion_order) note_model true init init _ Hrun).
Defined.


(** The generator that raised on the table [article], after the comment
    on its column [price] was collected, is used again for the table
    [team]: the comment on [article.price] comes out with [team]. *)
Lemma held_comments_are_flushed_witness :
  ∃ g t g',
    g = (_get_table_sql (B:=simple_base [article_model; squad_model])
           (R:=converts_no_object) article_model true init).2
    ∧ comments_array g
      = [COLUMN_COMMENT_TEMPLATE (dq +:+ "article" +:+ dq) "price" "Price"]
    ∧ _get_table_sql (B:=simple_base [article_model; squad_model])
        (R:=converts_no_object) squad_model true g = (Ok t, g')
    ∧ ∃ fields_to_create field_indexes_sqls own,
        table_creation_string t
        = join nl (create_statement
                     (B:=simple_base [article_model; squad_model])
                     squad_model true fields_to_create
                   :: field_indexes_sqls)
          +:+ hook_text (comments_array g ++ own)
        ∧ Forall (λ c, (∃ item, item ∈ fields_db_projection squad_model
                                ∧ column_comment
                                    (B:=simple_base
                                          [article_model; squad_model])
                                    squad_model item c)
                       ∨ c ∈ table_comments
                               (B:=simple_base
                                     [article_model; squad_model])
                               squad_model) own
        ∧ comments_array g' = [].
Proof.
  eexists _, _, _. split; [reflexivity|]. split; [by vm_compute|].
  apply and_then.
  - vm_compute. reflexivity.
  - intros Hrun.
    exact (held_comments_are_flushed
             (B:=simple_base [article_model; squad_model])
             (R:=converts_no_object) squad_model true _ _ _ Hrun).
Defined.


(** ** Errors and shapes of the default fragment *)

(** The loop over two lists in a row. *)
Lemma foldM_app {A B} (f : B → A → M B) (l1 l2 : list A) (acc : B)
    (g : Generator) :
  foldM f acc (l1 ++ l2) g
  = match foldM f acc l1 g with
    | (Ok acc', g') => foldM f acc' l2 g'
    | (Raise e, g') => (Raise e, g')
    end.
Proof.
  revert acc g. induction l1 as [|x l1 IH]; intros acc g; simpl; [done|].
  unfold bind. destruct (f acc x g) as [[acc'|e] g']; [apply IH|done].
Qed.

Section default_errors.
Context `{B : BaseSchemaGenerator} `{R : Runtime}.

(** The default fragment of a column raises exactly the error of
    [to_db_value], whatever it is, or the error raised while the value
    is escaped unless that is [NotImplementedError]; fields without a
    default and markers, callable defaults and the fields of the three
    classes that are not inlined raise nothing. *)
Theorem default_fragment_errors (model : Model) (column_name : string)
    (field_object : Field) (e : exn) :
  column_default model column_name field_object = Raise e
  ↔ is_not_None (default_value field_object) || auto_now field_object
    || auto_now_add field_object = true
    ∧ callable (default_value field_object) = false
    ∧ non_inlinable (field_class field_object) = false
    ∧ (to_db_value field_object (default_value field_object) model = Raise e
       ∨ ∃ v, to_db_value field_object (default_value field_object) model
              = Ok v
              ∧ _escape_default_value v = Raise e
              ∧ e ≠ NotImplementedError).
Proof.
  unfold column_default.
  destruct (is_not_None _ || auto_now _ || auto_now_add _);
    [|split; [done|by intros (? & _)]].
  destruct (callable _); [split; [done|by intros (_ & ? & _)]|].
  destruct (non_inlinable _); [split; [done|by intros (_ & _ & ? & _)]|].
  simpl.
  destruct (to_db_value _ _ _) as [v|e']; simpl.
  - destruct (_escape_default_value v) as [escaped|e''] eqn:Hescaped; simpl.
    + split; [done|]. intros (_ & _ & _ & [?|(v' & [= <-] & Hv' & _)]);
        [done|congruence].
    + split.
      * intros He. repeat split; try done. right. exists v.
        split; [done|]. destruct e''; simplify_eq; done.
      * intros (_ & _ & _ & [?|(v' & [= <-] & Hv' & Hne)]); [done|].
        rewrite Hescaped in Hv'. injection Hv' as ->. by destruct e.
  - split.
    + intros [= ->]. repeat split; try done. by left.
    + intros (_ & _ & _ & [[= ->]|(v' & ? & _)]); done.
Qed.

(** A default fragment that is rendered is empty, or the
    current-timestamp default of a field with the auto-now-add marker,
    or [DEFAULT] and the escaped value. *)
Theorem default_fragment_shape (model : Model) (column_name : string)
    (field_object : Field) (default : string) :
  column_default model column_name field_object = Ok default →
  default = ""
  ∨ (auto_now_add field_object = true
     ∧ default = " DEFAULT CURRENT_TIMESTAMP")
  ∨ (auto_now_add field_object = false
     ∧ ∃ v escaped,
         to_db_value field_object (default_value field_object) model = Ok v
         ∧ _escape_default_value v = Ok escaped
         ∧ default = " DEFAULT" +:+ " " +:+ py_str escaped).
Proof.
  unfold column_default.
  destruct (is_not_None _ || auto_now _ || auto_now_add _);
    [|intros [= <-]; by left].
  destruct (callable _ || non_inlinable _); [intros [= <-]; by left|].
  destruct (to_db_value _ _ _) as [v|e] eqn:Hv; [|done]. simpl.
  destruct (_escape_default_value v) as [escaped|e] eqn:Hescaped; simpl.
  - intros [= <-]. unfold _column_default_generator.
    destruct (auto_now_add field_object); right; [by left|].
    right. split; [done|]. by exists v, escaped.
  - destruct e; try done. intros [= <-]. by left.
Qed.

(** A default that [to_db_value] turns into a boolean is written as
    [True] or [False]; the encoders are not asked. *)
Theorem boolean_default_is_not_encoded (model : Model) (column_name : string)
    (field_object : Field) (b : bool) :
  is_not_None (default_value field_object) = true →
  callable (default_value field_object) = false →
  non_inlinable (field_class field_object) = false →
  auto_now_add field_object = false →
  to_db_value field_object (default_value field_object) model
  = Ok (PyBool b) →
  column_default model column_name field_object
  = Ok (" DEFAULT" +:+ " " +:+ (if b then "True" else "False")).
Proof.
  intros Hdefault Hcallable Hclass Hmarker Hv. unfold column_default.
  rewrite Hdefault, Hcallable, Hclass, Hv, Hmarker. simpl.
  by destruct b.
Qed.

(** When the columns before a column render and the default fragment of
    that column raises, [_get_table_sql] raises this error: no table is
    returned, and the columns after it are not looked at. *)
Theorem default_error_stops_the_table (model : Model) (safe : bool)
    (g : Generator) (before after : list (string * string))
    (item : string * string) (field_object : Field) (e : exn) :
  fields_db_projection model = before ++ item :: after →
  Forall (λ item, ∃ field_object default,
                    column_of model item field_object default) before →
  fields_map model !! item.1 = Some (ColumnField field_object) →
  column_default model item.2 field_object = Raise e →
  ∃ g', _get_table_sql model safe g = (Raise e, g').
Proof.
  intros Hitems Hbefore Hf He.
  destruct (render_columns_run model before Hbefore
              {| fields_to_create := []; fields_with_index := [];
                 column_references := ∅ |} g) as (columns & g1 & Hrun).
  unfold _get_table_sql. unfold bind at 1.
  rewrite Hitems, foldM_app, Hrun. cbn [foldM]. unfold bind at 1.
  destruct item as [field_name column_name]. simpl in Hf, He.
  assert (∃ g', render_column model columns (field_name, column_name) g1
                = (Raise e, g')) as [g' ->]; [|by eexists].
  unfold render_column, fields_map_get, bind, lift. rewrite Hf.
  rewrite optional_column_comment, He. by eexists.
Qed.

End default_errors.

Lemma default_fragment_shape_witness :
  " DEFAULT CURRENT_TIMESTAMP" = ""
  ∨ (auto_now_add (datetime_column true false) = true
     ∧ " DEFAULT CURRENT_TIMESTAMP" = " DEFAULT CURRENT_TIMESTAMP")
  ∨ (auto_now_add (datetime_column true false) = false
     ∧ ∃ v escaped,
         to_db_value (Runtime:=insertion_order) (datetime_column true false)
           (default_value (datetime_column true false)) event_model = Ok v
         ∧ _escape_default_value (R:=insertion_order) v = Ok escaped
         ∧ " DEFAULT CURRENT_TIMESTAMP"
           = " DEFAULT" +:+ " " +:+ py_str escaped).
Proof.
  apply (default_fragment_shape (R:=insertion_order) event_model "created"
           (datetime_column true false)).
  vm_compute. reflexivity.
Defined.

Lemma boolean_default_is_not_encoded_witness :
  column_default (R:=insertion_order) article_model "active" flag_column
  = Ok (" DEFAULT" +:+ " " +:+ "True").
Proof.
  apply (boolean_default_is_not_encoded (R:=insertion_order) article_model
           "active" flag_column true); reflexivity.
Defined.

(** The error of [to_db_value] is not turned into an empty default, even
    when it is [NotImplementedError]. *)
Lemma default_error_stops_the_table_witness :
  ∃ g',
    _get_table_sql (B:=simple_base [article_model]) (R:=converts_no_object)
      article_model true init = (Raise NotImplementedError, g').
Proof.
  apply (default_error_stops_the_table (B:=simple_base [article_model])
           (R:=converts_no_object) article_model true init
           [("id", "id"); ("active", "active")] [("title", "title")]
           ("price", "price") price_column NotImplementedError).
  - reflexivity.
  - repeat constructor; eexists _, _; split; vm_compute; reflexivity.
  - vm_compute. reflexivity.
  - reflexivity.
Defined.

(** ** Quotes in comments and in table names *)

Lemma append_String (c : ascii) (a b : string) :
  String c a +:+ b = String c (a +:+ b).
Proof. reflexivity. Qed.

Lemma append_empty (b : string) : "" +:+ b = b.
Proof. reflexivity. Qed.

(** Whether the character [q] does not occur in [s]. *)
Fixpoint free_of (q : ascii) (s : string) : bool :=
  match s with
  | EmptyString => true
  | String c s' => negb (bool_decide (c = q)) && free_of q s'
  end.

(** Whether every single quote of [s] is followed by a second one that
    belongs to it: what a text must be like to stand between the quotes
    of an SQL literal. *)
Fixpoint quotes_in_pairs (s : string) : bool :=
  match s with
  | EmptyString => true
  | String c s' =>
      if decide (c = "'"%char)
      then match s' with
           | String c' s'' => bool_decide (c' = "'"%char) && quotes_in_pairs s''
           | EmptyString => false
           end
      else quotes_in_pairs s'
  end.

(** The text of a literal read back: a pair of quotes is one quote. *)
Fixpoint undouble (s : string) : string :=
  match s with
  | EmptyString => EmptyString
  | String c s' =>
      if decide (c = "'"%char)
      then match s' with
           | String c' s'' =>
               if decide (c' = "'"%char)
               then String c (undouble s'')
               else String c (undouble s')
           | EmptyString => String c EmptyString
           end
      else String c (undouble s')
  end.

Lemma quotes_in_pairs_free (a b : string) :
  free_of "'" a = true →
  quotes_in_pairs (a +:+ b) = quotes_in_pairs b.
Proof.
  induction a as [|c a IH]; [done|]. simpl.
  intros [Hc Ha]%andb_true_iff.
  apply negb_true_iff, bool_decide_eq_false_1 in Hc.
  rewrite decide_False by done. by apply IH.
Qed.

Lemma undouble_free (a b : string) :
  free_of "'" a = true →
  undouble (a +:+ b) = a +:+ undouble b.
Proof.
  induction a as [|c a IH]; [done|]. simpl.
  intros [Hc Ha]%andb_true_iff.
  apply negb_true_iff, bool_decide_eq_false_1 in Hc.
  rewrite decide_False by done. by rewrite IH.
Qed.

(** What the table does to one character. *)
Lemma escape_table_lookup (inherited table : list string) (c : ascii) :
  _get_escape_translation_table inherited = Ok table →
  default (String c EmptyString) (table !! nat_of_ascii c)
  = if decide (c = "'"%char) then "''"
    else default (String c EmptyString) (inherited !! nat_of_ascii c).
Proof.
  unfold _get_escape_translation_table. case_decide as Hlen; [|done].
  intros [= <-]. case_decide as Hc.
  - subst c. by rewrite list_lookup_insert_eq.
  - rewrite list_lookup_insert_ne; [done|].
    intros Heq. apply Hc. apply (f_equal ascii_of_nat) in Heq.
    by rewrite !ascii_nat_embedding in Heq.
Qed.

(** In a text translated with the table of the class all single quotes
    stand in pairs, whatever the text, as long as the entries inherited
    for the other characters hold no single quote: the comment cannot
    end the literal it is put into. *)
Theorem translated_quotes_are_paired (inherited table : list string)
    (s : string) :
  _get_escape_translation_table inherited = Ok table →
  (∀ i r, i ≠ nat_of_ascii "'" → inherited !! i = Some r →
          free_of "'" r = true) →
  quotes_in_pairs (translate table s) = true.
Proof.
  intros Htable Hinherited. induction s as [|c s IH]; [done|].
  cbn [translate]. rewrite (escape_table_lookup _ _ c Htable).
  case_decide as Hc; [done|].
  rewrite quotes_in_pairs_free; [done|].
  destruct (inherited !! nat_of_ascii c) as [r|] eqn:Hr; simpl.
  - eapply (Hinherited (nat_of_ascii c)); [|done].
    intros Heq. apply Hc. apply (f_equal ascii_of_nat) in Heq.
    by rewrite !ascii_nat_embedding in Heq.
  - by rewrite bool_decide_eq_false_2.
Qed.

(** Whether the inherited table leaves the characters of [s] other than
    the single quote as they are. *)
Fixpoint kept_by (inherited : list string) (s : string) : bool :=
  match s with
  | EmptyString => true
  | String c s' =>
      (bool_decide (c = "'"%char)
       || bool_decide (default (String c EmptyString)
                         (inherited !! nat_of_ascii c)
                       = String c EmptyString))
      && kept_by inherited s'
  end.

(** Reading the translated text as a literal gives the comment back, when
    the comment holds no character that the inherited table changes; the
    translation is then the comment with every single quote doubled. *)
Theorem translated_comment_reads_back (inherited table : list string)
    (s : string) :
  _get_escape_translation_table inherited = Ok table →
  kept_by inherited s = true →
  translate table s = double_quotes s
  ∧ undouble (translate table s) = s.
Proof.
  intros Htable. induction s as [|c s IH]; [done|].
  cbn [translate kept_by double_quotes].
  intros [Hc Hs]%andb_true_iff. destruct (IH Hs) as [IH1 IH2].
  rewrite (escape_table_lookup _ _ c Htable).
  case_decide as Hq.
  - subst c. simpl. split; [by rewrite <- IH1|].
    by rewrite append_empty, IH2.
  - apply orb_true_iff in Hc as [Hc|Hc];
      [by apply bool_decide_eq_true_1 in Hc|].
    apply bool_decide_eq_true_1 in Hc. rewrite Hc. simpl.
    rewrite !decide_False by done. rewrite ?append_empty.
    split; [by rewrite IH1|by rewrite IH2].
Qed.

(** A list too short to have an entry for the single quote makes the
    method raise: no table is returned. *)
Lemma escape_table_short (inherited : list string) :
  length inherited ≤ nat_of_ascii "'" →
  _get_escape_translation_table inherited = Raise (OtherError "IndexError").
Proof.
  intros Hlen. unfold _get_escape_translation_table.
  by rewrite decide_False by lia.
Qed.

(** The double quote. *)
Definition dq_char : ascii := ascii_of_nat 34.

(** [s] split at its first double quote. *)
Fixpoint until_quote (s : string) : option (string * string) :=
  match s with
  | EmptyString => None
  | String c s' =>
      if decide (c = dq_char) then Some (EmptyString, s')
      else match until_quote s' with
           | Some (a, r) => Some (String c a, r)
           | None => None
           end
  end.

(** A table name in SQL read back into namespace and table. *)
Definition read_table_name (s : string) : option (option string * string) :=
  match s with
  | String c s1 =>
      if decide (c = dq_char) then
        match until_quote s1 with
        | Some (a, EmptyString) => Some (None, a)
        | Some (a, String d (String e r)) =>
            if decide (d = "."%char ∧ e = dq_char) then
              match until_quote r with
              | Some (b, EmptyString) => Some (Some a, b)
              | _ => None
              end
            else None
        | _ => None
        end
      else None
  | EmptyString => None
  end.

Lemma until_quote_app (a r : string) :
  free_of dq_char a = true →
  until_quote (a +:+ String dq_char r) = Some (a, r).
Proof.
  induction a as [|c a IH]; simpl.
  - intros _. first [done|by rewrite decide_True].
  - intros [Hc Ha]%andb_true_iff.
    apply negb_true_iff, bool_decide_eq_false_1 in Hc.
    rewrite decide_False by done. by rewrite IH.
Qed.

(** Namespace and table are read back from the name that
    [_get_table_name_sql_string] gives, when neither holds a double
    quote. *)
Lemma read_table_name_back (schema : option string) (db_table : string) :
  free_of dq_char db_table = true →
  (∀ s, schema = Some s → free_of dq_char s = true) →
  read_table_name (_get_table_name_sql_string schema db_table)
  = Some (schema, db_table).
Proof.
  intros Htable Hschema. unfold _get_table_name_sql_string, read_table_name.
  destruct schema as [s|].
  - change (dq +:+ s +:+ dq +:+ "." +:+ dq +:+ db_table +:+ dq)
      with (String dq_char
              (s +:+ String dq_char
                       (String "." (String dq_char
                                      (db_table +:+ String dq_char ""))))).
    cbv beta iota. rewrite decide_True by done.
    rewrite until_quote_app by by apply Hschema.
    rewrite decide_True by done. by rewrite until_quote_app.
  - change (dq +:+ db_table +:+ dq)
      with (String dq_char (db_table +:+ String dq_char "")).
    cbv beta iota. rewrite decide_True by done. by rewrite until_quote_app.
Qed.

(** Two tables have the same name in SQL only if they have the same
    namespace and the same table name, as long as these names hold no
    double quote. *)
Theorem qualified_names_differ (schema1 schema2 : option string)
    (table1 table2 : string) :
  free_of dq_char table1 = true →
  free_of dq_char table2 = true →
  (∀ s, schema1 = Some s → free_of dq_char s = true) →
  (∀ s, schema2 = Some s → free_of dq_char s = true) →
  _get_table_name_sql_string schema1 table1
  = _get_table_name_sql_string schema2 table2 →
  schema1 = schema2 ∧ table1 = table2.
Proof.
  intros Ht1 Ht2 Hs1 Hs2 Heq.
  pose proof (read_table_name_back schema1 table1 Ht1 Hs1) as H1.
  pose proof (read_table_name_back schema2 table2 Ht2 Hs2) as H2.
  rewrite Heq, H2 in H1. by injection H1 as -> ->.
Qed.

Lemma qualified_names_differ_witness :
  Some "sport" = Some "sport" ∧ "team" = "team".
Proof.
  apply (qualified_names_differ (Some "sport") (Some "sport") "team" "team");
    try reflexivity; by intros s [= <-].
Defined.

(** A check of the entries from the index [i] on that runs. *)
Fixpoint other_entries_quote_free (i : nat) (l : list string) : bool :=
  match l with
  | [] => true
  | r :: l' =>
      (bool_decide (i = nat_of_ascii "'") || free_of "'" r)
      && other_entries_quote_free (S i) l'
  end.

Lemma other_entries_quote_free_sound (l : list string) :
  ∀ k, other_entries_quote_free k l = true →
       ∀ i r, k + i ≠ nat_of_ascii "'" → l !! i = Some r →
              free_of "'" r = true.
Proof.
  induction l as [|x l IH]; intros k Hcheck i r Hne Hr; [done|].
  simpl in Hcheck. apply andb_true_iff in Hcheck as [Hx Hl].
  destruct i as [|i]; simpl in Hr.
  - injection Hr as ->. apply orb_true_iff in Hx as [Hx|Hx]; [|done].
    apply bool_decide_eq_true_1 in Hx. lia.
  - apply (IH (S k) Hl i r); [lia|done].
Qed.

Lemma translated_quotes_are_paired_witness :
  ∃ table,
    _get_escape_translation_table plain_table = Ok table
    ∧ quotes_in_pairs (translate table "What's up, 'doc'?'") = true.
Proof.
  eexists. apply and_then.
  - vm_compute. reflexivity.
  - intros Htable.
    refine (translated_quotes_are_paired plain_table _ _ Htable _).
    intros i r Hne Hr.
    apply (other_entries_quote_free_sound plain_table 0 eq_refl i r);
      [exact Hne|exact Hr].
Defined.

Lemma translated_comment_reads_back_witness :
  ∃ table,
    _get_escape_translation_table plain_table = Ok table
    ∧ translate table "What's up" = double_quotes "What's up"
    ∧ undouble (translate table "What's up") = "What's up".
Proof.
  eexists. apply and_then.
  - vm_compute. reflexivity.
  - intros Htable.
    exact (translated_comment_reads_back plain_table _ "What's up" Htable
             eq_refl).
Defined.

(** ** No models *)

Section no_models.
Context `{B : BaseSchemaGenerator} `{R : Runtime}.

(** Without models the loop breaks at once: the script holds no table,
    only a statement for each namespace the generator remembers from
    earlier calls, and is empty for a new generator. *)
Theorem no_models_no_tables (safe : bool) (g : Generator) :
  _get_models_to_create = [] →
  get_create_schema_sql safe g
  = (Ok (join nl (create_schemas_sql safe (schema_names g))), g).
Proof.
  intros Hnone. unfold get_create_schema_sql. rewrite Hnone. simpl.
  unfold bind, ret, lift. simpl.
  replace (order_tables []) with (Ok (start [])); last first.
  { unfold order_tables, while_true, loop_body. simpl.
    by rewrite decide_True by done. }
  simpl. by rewrite app_nil_r.
Qed.

End no_models.

Lemma no_models_no_tables_witness :
  get_create_schema_sql (B:=simple_base []) (R:=insertion_order) true init
  = (Ok "", init).
Proof.
  exact (no_models_no_tables (B:=simple_base []) (R:=insertion_order)
           true init eq_refl).
Defined.

(** ** The join table of a relation without a constraint *)

Definition nl_char : ascii := ascii_of_nat 10.

(** Whether no line of [s] after the first starts with four blanks and a
    comma. *)
Fixpoint no_blank_line (s : string) : bool :=
  match s with
  | EmptyString => true
  | String c s' =>
      (if decide (c = nl_char) then negb (startswith "    ," s') else true)
      && no_blank_line s'
  end.

Lemma startswith_m2m_blank (c : ascii) (s : string) :
  startswith m2m_blank (String c s) = true →
  ∃ s', s = String nl_char s' ∧ startswith "    ," s' = true.
Proof.
  unfold m2m_blank, nl. simpl.
  intros [_ Hs]%andb_true_iff.
  destruct s as [|c1 s]; [done|].
  apply andb_true_iff in Hs as [Hc1 Hs].
  apply bool_decide_eq_true_1 in Hc1. subst c1.
  exists s. split; [done|].
  destruct s as [|c2 s]; [done|].
  apply andb_true_iff in Hs as [Hc2 Hs]. simpl. rewrite Hc2. simpl.
  destruct s as [|c3 s]; [done|].
  apply andb_true_iff in Hs as [Hc3 Hs]. rewrite Hc3. simpl.
  destruct s as [|c4 s]; [done|].
  apply andb_true_iff in Hs as [Hc4 Hs]. rewrite Hc4. simpl.
  destruct s as [|c5 s]; [done|].
  apply andb_true_iff in Hs as [Hc5 Hs]. rewrite Hc5. simpl.
  destruct s as [|c6 s]; [done|].
  apply andb_true_iff in Hs as [Hc6 Hs]. by rewrite Hc6.
Qed.

Lemma replace_no_blank_line (new s : string) :
  no_blank_line s = true → replace m2m_blank new s = s.
Proof.
  unfold replace. induction s as [|c s IH]; [done|].
  intros Hs. cbn [no_blank_line] in Hs.
  apply andb_true_iff in Hs as [_ Hs].
  cbn [replace_from].
  destruct (startswith m2m_blank (String c s)) eqn:Hstart.
  - apply startswith_m2m_blank in Hstart as (s' & -> & Hstart).
    cbn [no_blank_line] in Hs. rewrite decide_True in Hs by done.
    rewrite Hstart in Hs. done.
  - by rewrite IH.
Qed.

Lemma no_blank_line_free (a b : string) :
  free_of nl_char a = true →
  no_blank_line (a +:+ b) = no_blank_line b.
Proof.
  induction a as [|c a IH]; [done|]. simpl.
  intros [Hc Ha]%andb_true_iff.
  apply negb_true_iff, bool_decide_eq_false_1 in Hc.
  rewrite decide_False by done. by apply IH.
Qed.

Lemma no_blank_line_nl (b : string) :
  no_blank_line (nl +:+ b)
  = negb (startswith "    ," b) && no_blank_line b.
Proof. reflexivity. Qed.

Section unconstrained_join_table.
Context `{B : BaseSchemaGenerator} `{R : Runtime}.

(** Without a constraint the text of a join table is the template with
    both reference clauses empty: as long as names, types, the table
    options and the comment hold no line break, the clearing of the
    separator removes nothing. *)
Theorem unconstrained_join_table_text (model : Model) (safe : bool)
    (field_object : ManyToManyFieldInstance) (comment : string) :
  let through_table := Table_str (through field_object) (schema model) in
  m2m_db_constraint field_object = false →
  free_of nl_char through_table = true →
  free_of nl_char (backward_key field_object) = true →
  free_of nl_char (pk_SQL_TYPE model) = true →
  free_of nl_char (forward_key field_object) = true →
  free_of nl_char (ref_pk_SQL_TYPE (m2m_related_model field_object)) = true →
  free_of nl_char (_table_generate_extra through_table) = true →
  free_of nl_char comment = true →
  m2m_create_string model safe field_object comment
  = M2M_TABLE_TEMPLATE (exists_ safe) through_table
      (backward_key field_object) (pk_SQL_TYPE model) ""
      (forward_key field_object)
      (ref_pk_SQL_TYPE (m2m_related_model field_object)) ""
      (_table_generate_extra through_table) comment.
Proof.
  intros through_table Hfree Hthrough Hbk Hbt Hfk Hft Hextra Hcomment.
  unfold m2m_create_string. fold through_table. rewrite Hfree.
  apply replace_no_blank_line. unfold M2M_TABLE_TEMPLATE.
  assert (Hexists : free_of nl_char (exists_ safe) = true)
    by (by destruct safe).
  assert (Hdq : free_of nl_char dq = true) by done.
  rewrite (no_blank_line_free "CREATE TABLE ") by done.
  rewrite (no_blank_line_free (exists_ safe)) by done.
  rewrite (no_blank_line_free through_table) by done.
  rewrite (no_blank_line_free " (") by done.
  rewrite no_blank_line_nl. apply andb_true_iff. split; [done|].
  rewrite (no_blank_line_free "    ") by done.
  rewrite (no_blank_line_free dq) by done.
  rewrite (no_blank_line_free (backward_key field_object)) by done.
  rewrite (no_blank_line_free dq) by done.
  rewrite (no_blank_line_free " ") by done.
  rewrite (no_blank_line_free (pk_SQL_TYPE model)) by done.
  rewrite (no_blank_line_free " NOT NULL") by done.
  rewrite (no_blank_line_free "") by done.
  rewrite (no_blank_line_free ",") by done.
  rewrite no_blank_line_nl. apply andb_true_iff. split; [done|].
  rewrite (no_blank_line_free "    ") by done.
  rewrite (no_blank_line_free dq) by done.
  rewrite (no_blank_line_free (forward_key field_object)) by done.
  rewrite (no_blank_line_free dq) by done.
  rewrite (no_blank_line_free " ") by done.
  rewrite (no_blank_line_free
             (ref_pk_SQL_TYPE (m2m_related_model field_object))) by done.
  rewrite (no_blank_line_free " NOT NULL") by done.
  rewrite (no_blank_line_free "") by done.
  rewrite no_blank_line_nl. apply andb_true_iff. split; [done|].
  rewrite (no_blank_line_free ")") by done.
  rewrite (no_blank_line_free (_table_generate_extra through_table))
    by done.
  rewrite (no_blank_line_free comment) by done.
  done.
Qed.

End unconstrained_join_table.

Lemma unconstrained_join_table_text_witness :
  m2m_create_string (B:=simple_base []) (R:=insertion_order)
    meeting_model true guests ""
  = M2M_TABLE_TEMPLATE (exists_ true) (dq +:+ "event_guest" +:+ dq)
      "event_id" "INT" "" "team_id" "INT" "" "" "".
Proof.
  exact (unconstrained_join_table_text (B:=simple_base [])
           (R:=insertion_order) meeting_model true guests ""
           eq_refl eq_refl eq_refl eq_refl eq_refl eq_refl eq_refl eq_refl).
Defined.

(** ** A declared join table in the text of the script *)

Lemma append_assoc (a b c : string) : (a +:+ b) +:+ c = a +:+ b +:+ c.
Proof.
  induction a as [|x a IH]; [done|]. rewrite !append_String. by f_equal.
Qed.

Lemma startswith_app (a b s : string) :
  startswith (a +:+ b) (a +:+ s) = startswith b s.
Proof.
  induction a as [|x a IH]; [done|]. rewrite !append_String.
  cbn [startswith]. by rewrite bool_decide_eq_true_2 by done.
Qed.

Lemma free_of_app (q : ascii) (a b : string) :
  free_of q (a +:+ b) = free_of q a && free_of q b.
Proof.
  induction a as [|x a IH]; [done|]. rewrite append_String.
  cbn [free_of]. rewrite IH. by rewrite andb_assoc.
Qed.

Lemma startswith_String (c d : ascii) (p s : string) :
  startswith (String c p) (String d s) = true →
  c = d ∧ startswith p s = true.
Proof.
  cbn [startswith]. intros [Heq Hrest]%andb_true_iff.
  split; [by apply bool_decide_eq_true_1 in Heq|done].
Qed.

(** Two texts that run up to a double quote: one starts with the other
    only if they are the same up to the quote. *)
Lemma startswith_quoted (a b x y : string) :
  free_of dq_char a = true → free_of dq_char b = true →
  startswith (a +:+ String dq_char x) (b +:+ String dq_char y) = true →
  a = b ∧ startswith x y = true.
Proof.
  revert b. induction a as [|c a IH]; intros [|d b] Ha Hb Hstart;
    rewrite ?append_String, ?append_empty in Hstart;
    cbn [startswith free_of] in *;
    apply andb_true_iff in Hstart as [Heq Hstart];
    apply bool_decide_eq_true_1 in Heq.
  - done.
  - subst d. apply andb_true_iff in Hb as [Hd _].
    by rewrite bool_decide_eq_true_2 in Hd.
  - subst c. apply andb_true_iff in Ha as [Hc _].
    by rewrite bool_decide_eq_true_2 in Hc.
  - subst d. apply andb_true_iff in Ha as [_ Ha].
    apply andb_true_iff in Hb as [_ Hb].
    by destruct (IH b Ha Hb Hstart) as [-> Hxy].
Qed.

(** The name of a table in SQL, with what follows it, character by
    character. *)
Lemma table_name_followed (schema : option string) (db_table rest : string) :
  _get_table_name_sql_string schema db_table +:+ rest
  = match schema with
    | Some s =>
        String dq_char
          (s +:+ String dq_char
                   (String "." (String dq_char
                                  (db_table +:+ String dq_char rest))))
    | None => String dq_char (db_table +:+ String dq_char rest)
    end.
Proof.
  unfold _get_table_name_sql_string. destruct schema as [s|].
  - change (dq +:+ s +:+ dq +:+ "." +:+ dq +:+ db_table +:+ dq)
      with (String dq_char
              (s +:+ String dq_char
                       (String "." (String dq_char
                                      (db_table +:+ String dq_char ""))))).
    by repeat first [rewrite append_String | rewrite append_assoc
                    | rewrite append_empty].
  - change (dq +:+ db_table +:+ dq)
      with (String dq_char (db_table +:+ String dq_char "")).
    by repeat first [rewrite append_String | rewrite append_assoc
                    | rewrite append_empty].
Qed.

(** A name followed by a bracket starts with another name followed by a
    bracket only if namespace and table are the same. *)
Lemma startswith_table_name (schema1 schema2 : option string)
    (table1 table2 rest : string) :
  free_of dq_char table1 = true →
  free_of dq_char table2 = true →
  (∀ s, schema1 = Some s → free_of dq_char s = true) →
  (∀ s, schema2 = Some s → free_of dq_char s = true) →
  startswith (_get_table_name_sql_string schema1 table1 +:+ " (")
    (_get_table_name_sql_string schema2 table2 +:+ " (" +:+ rest) = true →
  schema1 = schema2 ∧ table1 = table2.
Proof.
  intros Ht1 Ht2 Hs1 Hs2. rewrite !table_name_followed.
  destruct schema1 as [s1|], schema2 as [s2|];
    intros [_ Hstart]%startswith_String.
  - apply startswith_quoted in Hstart as [-> Hstart];
      [|by apply Hs1|by apply Hs2].
    apply startswith_String in Hstart as [_ Hstart].
    apply startswith_String in Hstart as [_ Hstart].
    by apply startswith_quoted in Hstart as [-> _].
  - apply startswith_quoted in Hstart as [_ Hstart];
      [|by apply Hs1|done].
    rewrite append_String in Hstart.
    by apply startswith_String in Hstart as [? _].
  - apply startswith_quoted in Hstart as [_ Hstart];
      [|done|by apply Hs2].
    by apply startswith_String in Hstart as [? _].
  - by apply startswith_quoted in Hstart as [-> _].
Qed.

(** The first words of a statement that creates the table [table_name]. *)
Definition create_prefix (safe : bool) (table_name : string) : string :=
  "CREATE TABLE " +:+ exists_ safe +:+ table_name +:+ " (".

(** Whether the text [s] starts with them. *)
Definition creates_table (safe : bool) (table_name s : string) : bool :=
  startswith (create_prefix safe table_name) s.

Lemma creates_table_same (safe : bool) (table_name rest : string) :
  creates_table safe table_name
    ("CREATE TABLE " +:+ exists_ safe +:+ table_name +:+ " (" +:+ rest)
  = true.
Proof.
  unfold creates_table, create_prefix.
  rewrite (startswith_app "CREATE TABLE "), (startswith_app (exists_ safe)).
  rewrite (startswith_app table_name). done.
Qed.

Lemma creates_table_other (safe : bool) (schema1 schema2 : option string)
    (table1 table2 rest : string) :
  free_of dq_char table1 = true →
  free_of dq_char table2 = true →
  (∀ s, schema1 = Some s → free_of dq_char s = true) →
  (∀ s, schema2 = Some s → free_of dq_char s = true) →
  creates_table safe (_get_table_name_sql_string schema1 table1)
    ("CREATE TABLE " +:+ exists_ safe
     +:+ _get_table_name_sql_string schema2 table2 +:+ " (" +:+ rest)
  = true →
  schema1 = schema2 ∧ table1 = table2.
Proof.
  intros Ht1 Ht2 Hs1 Hs2. unfold creates_table, create_prefix.
  rewrite (startswith_app "CREATE TABLE "), (startswith_app (exists_ safe)).
  by apply startswith_table_name.
Qed.

Lemma creates_table_schema (safe : bool) (table_name schema_name : string) :
  creates_table safe table_name
    (SCHEMA_CREATION_TEMPLATE (exists_ safe) schema_name) = false.
Proof. done. Qed.

(** The separator is looked for in vain in a text without line break
    that is followed by a bracket. *)
Lemma replace_head (new a b : string) :
  free_of nl_char a = true →
  replace m2m_blank new (a +:+ " (" +:+ b)
  = a +:+ " (" +:+ replace m2m_blank new b.
Proof.
  unfold replace. induction a as [|c a IH]; [done|].
  intros [Hc Ha]%andb_true_iff.
  change (String c a +:+ " (" +:+ b) with (String c (a +:+ " (" +:+ b)).
  cbn [replace_from].
  assert (startswith m2m_blank (String c (a +:+ " (" +:+ b)) = false) as ->.
  { destruct (startswith m2m_blank (String c (a +:+ " (" +:+ b)))
      eqn:Hstart; [|done].
    apply startswith_m2m_blank in Hstart as (s' & Hs' & _).
    destruct a as [|c' a]; [done|].
    simpl in Ha. apply andb_true_iff in Ha as [Hc' _].
    injection Hs' as -> _. by rewrite bool_decide_eq_true_2 in Hc'. }
  rewrite IH by done. done.
Qed.

Section once.
Context `{B : BaseSchemaGenerator} `{R : Runtime}.

(** The text of a rendered table starts with the words that create it. *)
Lemma rendered_text (safe : bool) (model : Model) (t : TableSql) :
  rendered safe model t →
  ∃ rest,
    table_creation_string t
    = "CREATE TABLE " +:+ exists_ safe +:+ table_name_of model +:+ " ("
      +:+ rest.
Proof.
  intros (columns & g1 & uniq & idx & _ & _ & _ & -> & _)%get_table_sql_Ok.
  unfold create_statement, TABLE_CREATE_TEMPLATE.
  destruct idx as [|i idx]; cbn [join]; rewrite !append_assoc;
    by eexists.
Qed.

(** So does the text of a join table, when the name of the table holds
    no line break. *)
Lemma join_table_text (model : Model) (safe : bool)
    (field_object : ManyToManyFieldInstance) (comment : string) :
  free_of nl_char (Table_str (through field_object) (schema model)) = true →
  ∃ rest,
    m2m_create_string model safe field_object comment
    = "CREATE TABLE " +:+ exists_ safe
      +:+ Table_str (through field_object) (schema model) +:+ " (" +:+ rest.
Proof.
  intros Hfree. unfold m2m_create_string, M2M_TABLE_TEMPLATE.
  destruct (m2m_db_constraint field_object); [by eexists|].
  set (through_table := Table_str (through field_object) (schema model))
    in *.
  rewrite <- (append_assoc (exists_ safe) through_table).
  rewrite <- (append_assoc "CREATE TABLE ").
  rewrite replace_head.
  - rewrite !append_assoc. by eexists.
  - rewrite !free_of_app, Hfree. by destruct safe.
Qed.

End once.

(** A name without double quote and without line break. *)
Definition plain (s : string) : bool :=
  free_of dq_char s && free_of nl_char s.

(** Whether the names of a model are plain: its table, its namespace
    and the [through] tables of its many-to-many fields. *)
Definition plain_names (model : Model) : bool :=
  plain (db_table model)
  && match schema model with
     | Some s => plain s
     | None => true
     end
  && forallb (λ name,
                match fields_map model !! name with
                | Some (M2MField field_object) => plain (through field_object)
                | _ => true
                end)
       (m2m_fields model).

Lemma filter_nothing {A} (f : A → bool) (l : list A) :
  (∀ x, x ∈ l → f x = false) → filter (λ x, f x = true) l = [].
Proof.
  induction l as [|y l IH]; intros Hl; [done|].
  rewrite filter_cons_False.
  - apply IH. intros x Hx. apply Hl. by right.
  - rewrite Hl; [done|by left].
Qed.

Lemma elem_of_concat {A} (x : A) (ls : list (list A)) :
  x ∈ concat ls → ∃ l, x ∈ l ∧ l ∈ ls.
Proof.
  induction ls as [|l ls IH]; simpl; [by intros ?%elem_of_nil|].
  intros [Hx|Hx]%elem_of_app.
  - exists l. split; [done|by left].
  - destruct (IH Hx) as (l' & ? & ?). exists l'. split; [done|by right].
Qed.

Lemma plain_names_table (model : Model) :
  plain_names model = true →
  free_of dq_char (db_table model) = true
  ∧ ∀ s, schema model = Some s →
         free_of dq_char s = true ∧ free_of nl_char s = true.
Proof.
  unfold plain_names, plain.
  intros [[[Ht _]%andb_true_iff Hs]%andb_true_iff _]%andb_true_iff.
  split; [done|]. intros s Heq. rewrite Heq in Hs.
  by apply andb_true_iff in Hs.
Qed.

Lemma plain_names_through (model : Model) (name : string)
    (field_object : ManyToManyFieldInstance) :
  plain_names model = true →
  name ∈ m2m_fields model →
  fields_map model !! name = Some (M2MField field_object) →
  free_of dq_char (through field_object) = true
  ∧ free_of nl_char (through field_object) = true.
Proof.
  unfold plain_names, plain.
  intros [_ Hall]%andb_true_iff Hname Hf.
  rewrite forallb_forall in Hall.
  apply list_elem_of_In, Hall in Hname. rewrite Hf in Hname.
  by apply andb_true_iff in Hname.
Qed.

Section created_once.
Context `{B : BaseSchemaGenerator} `{R : Runtime}.

(** The statements a script is joined from. *)
Definition statements_of (safe : bool) (names : list string)
    (placed : list TableSql) : list string :=
  create_schemas_sql safe names
  ++ map table_creation_string placed
  ++ concat (map m2m_tables placed).

Lemma other_table_not_created (safe : bool) (declared model : Model)
    (t : TableSql) :
  plain_names declared = true →
  plain_names model = true →
  rendered safe model t →
  db_table model ≠ db_table declared →
  creates_table safe (table_name_of declared) (table_creation_string t)
  = false.
Proof.
  intros [Hd1 Hd2]%plain_names_table [Hm1 Hm2]%plain_names_table
    [rest ->]%rendered_text Hne.
  destruct (creates_table _ _ _) eqn:Hcreates; [|done].
  apply creates_table_other in Hcreates as [_ Heq]; try done.
  - intros s Hs. by apply Hd2.
  - intros s Hs. by apply Hm2.
Qed.

Lemma join_table_not_created (safe : bool) (declared model : Model)
    (name : string) (field_object : ManyToManyFieldInstance)
    (comments : string) :
  (∀ name schema,
     Table_str name schema = _get_table_name_sql_string schema name) →
  plain_names declared = true →
  plain_names model = true →
  name ∈ m2m_fields model →
  fields_map model !! name = Some (M2MField field_object) →
  through field_object ≠ db_table declared →
  creates_table safe (table_name_of declared)
    (m2m_create_string model safe field_object "" +:+ comments)
  = false.
Proof.
  intros Hstr [Hd1 Hd2]%plain_names_table Hplain Hname Hf Hne.
  destruct (plain_names_through _ _ _ Hplain Hname Hf) as [Hq Hl].
  apply plain_names_table in Hplain as [_ Hm2].
  destruct (join_table_text model safe field_object "") as [rest ->].
  { rewrite Hstr. unfold _get_table_name_sql_string.
    destruct (schema model) as [s|] eqn:Hs.
    - destruct (Hm2 s eq_refl) as [_ Hsl].
      rewrite !free_of_app, Hsl, Hl. done.
    - rewrite !free_of_app, Hl. done. }
  rewrite Hstr, !append_assoc.
  destruct (creates_table _ _ _) eqn:Hcreates; [|done].
  apply creates_table_other in Hcreates as [_ Heq]; try done.
  - intros s Hs. by apply Hd2.
  - intros s Hs. by apply Hm2.
Qed.

(** C7.  For a many-to-many field of a model whose [through] table is the
    table of a declared model, the round of the loop over the
    many-to-many fields adds no statement and leaves the generator as it
    is.  When the names of tables and namespaces are plain and a pypika
    table is rendered as its quoted name, exactly one of the statements
    of a returned script starts with [CREATE TABLE] and the name of
    that table: the statement rendered for the declared model. *)
Theorem declared_join_table_created_once (safe : bool) (g g' : Generator)
    (script : string) (model declared : Model) (m2m_field : string)
    (field_object : ManyToManyFieldInstance) :
  comments_array g = [] →
  get_create_schema_sql safe g = (Ok script, g') →
  model ∈ _get_models_to_create →
  fields_map model !! m2m_field = Some (M2MField field_object) →
  declared ∈ _get_models_to_create →
  through field_object = db_table declared →
  (∀ name schema,
     Table_str name schema = _get_table_name_sql_string schema name) →
  Forall (λ m, plain_names m = true) _get_models_to_create →
  (∀ acc g0,
     render_m2m model safe (map db_table _get_models_to_create) acc
       m2m_field g0 = (Ok acc, g0))
  ∧ ∃ placed t,
      script = join nl (statements_of safe (schema_names g') placed)
      ∧ t ∈ placed
      ∧ rendered safe declared t
      ∧ creates_table safe (table_name_of declared) (table_creation_string t)
        = true
      ∧ length (filter (λ s, creates_table safe (table_name_of declared) s
                             = true)
                  (statements_of safe (schema_names g') placed)) = 1.
Proof.
  intros Hempty Hrun Hmodel Hf Hdeclared Hthrough Hstr Hplain.
  assert (db_table declared ∈ map db_table _get_models_to_create) as Hname
    by (apply list_elem_of_fmap; by exists declared).
  rewrite Forall_forall in Hplain.
  split.
  { intros acc g0. eapply render_m2m_skip; [done|].
    unfold m2m_emitted. rewrite Hthrough, bool_decide_eq_true_2 by done.
    by rewrite orb_true_r. }
  apply get_create_schema_sql_Ok in Hrun
    as (tables & placed & Htables & _ & Hperm & Hnodup & _ & ->); [|done].
  destruct (proj1 (list_elem_of_lookup _ _) Hdeclared) as [i Hi].
  destruct (Forall2_lookup_l _ _ _ _ _ Htables Hi) as (t & Ht & Hrendered).
  assert (t ∈ placed) as Hplaced.
  { rewrite Hperm. apply list_elem_of_lookup. by exists i. }
  assert (∀ u, u ∈ placed →
               ∃ m, m ∈ _get_models_to_create ∧ rendered safe m u) as Hfrom.
  { intros u Hu. rewrite Hperm in Hu.
    destruct (proj1 (list_elem_of_lookup _ _) Hu) as [j Hj].
    destruct (Forall2_lookup_r _ _ _ _ _ Htables Hj) as (m & Hm & Hu').
    exists m. split; [|done]. apply list_elem_of_lookup. by exists j. }
  assert (creates_table safe (table_name_of declared)
            (table_creation_string t) = true) as Hcreates.
  { destruct (rendered_text _ _ _ Hrendered) as [rest ->].
    apply creates_table_same. }
  exists placed, t. split; [done|]. split; [done|]. split; [done|].
  split; [done|].
  apply list_elem_of_split in Hplaced as (before & after & ->).
  destruct (rendered_table _ _ _ Hrendered) as (Htable & _).
  assert (∀ u, u ∈ before ++ after →
               creates_table safe (table_name_of declared)
                 (table_creation_string u) = false) as Hothers.
  { intros u Hu.
    destruct (Hfrom u) as (m & Hm & Hu');
      [apply elem_of_app in Hu as [?|?]; apply elem_of_app;
       [by left|by right; right]|].
    apply (other_table_not_created safe declared m u);
      [by apply Hplain|by apply Hplain|done|].
    destruct (rendered_table _ _ _ Hu') as (Htable' & _).
    rewrite <- Htable, <- Htable'.
    rewrite map_app in Hnodup. simpl in Hnodup.
    apply NoDup_app in Hnodup as (_ & Hbefore & [Hafter _]%NoDup_cons).
    intros Heq. apply elem_of_app in Hu as [Hu|Hu].
    - apply (Hbefore (table u)); [apply list_elem_of_fmap; by exists u|].
      rewrite Heq. by left.
    - apply Hafter. rewrite <- Heq. apply list_elem_of_fmap. by exists u. }
  unfold statements_of. rewrite !filter_app, !length_app.
  rewrite (filter_nothing _ (create_schemas_sql _ _)); last first.
  { intros s (n & -> & _)%list_elem_of_fmap. apply creates_table_schema. }
  rewrite (filter_nothing _ (concat _)); last first.
  { intros s (l & Hs & (u & -> & Hu)%list_elem_of_fmap)%elem_of_concat.
    destruct (Hfrom u Hu) as (m & Hm & Hu').
    destruct (rendered_table _ _ _ Hu') as (_ & _ & Hall).
    destruct (proj1 (list_elem_of_lookup _ _) Hs) as [j Hj].
    destruct (Forall2_lookup_r _ _ _ _ _ Hall Hj)
      as (name & Hname' & relation & Hrelation & ->).
    apply list_elem_of_lookup_2, list_elem_of_filter in Hname'
      as [Hemitted Hin].
    apply (join_table_not_created safe declared m name relation);
      [done|by apply Hplain|by apply Hplain|done|done|].
    unfold m2m_field_emitted in Hemitted. rewrite Hrelation in Hemitted.
    unfold m2m_emitted in Hemitted.
    apply negb_true_iff, orb_false_iff in Hemitted as [_ Hnot].
    apply bool_decide_eq_false_1 in Hnot. intros Heq. apply Hnot.
    by rewrite Heq. }
  rewrite map_app, filter_app, length_app. simpl map.
  rewrite filter_cons_True by done.
  rewrite (filter_nothing _ (map _ before)); last first.
  { intros s (u & -> & Hu)%list_elem_of_fmap. apply Hothers.
    apply elem_of_app. by left. }
  rewrite (filter_nothing _ (map _ after)); last first.
  { intros s (u & -> & Hu)%list_elem_of_fmap. apply Hothers.
    apply elem_of_app. by right. }
  done.
Qed.

End created_once.

Lemma declared_join_table_created_once_witness :
  ∃ script g',
    get_create_schema_sql (B:=simple_base meeting_models)
      (R:=insertion_order) true init = (Ok script, g')
    ∧ ((∀ acc g0,
          render_m2m (B:=simple_base meeting_models) (R:=insertion_order)
            meeting_model true (map db_table meeting_models) acc
            "participants" g0 = (Ok acc, g0))
       ∧ ∃ placed t,
           script = join nl (statements_of (R:=insertion_order) true
                               (schema_names g') placed)
           ∧ t ∈ placed
           ∧ rendered (B:=simple_base meeting_models) (R:=insertion_order)
               true event_team_model t
           ∧ creates_table true (table_name_of event_team_model)
               (table_creation_string t) = true
           ∧ length (filter (λ s, creates_table true
                                    (table_name_of event_team_model) s
                                  = true)
                       (statements_of (R:=insertion_order) true
                          (schema_names g') placed)) = 1).
Proof.
  eexists _, _. apply and_then.
  - vm_compute. reflexivity.
  - intros Hrun.
    refine (declared_join_table_created_once (B:=simple_base meeting_models)
              (R:=insertion_order) true init _ _ meeting_model
              event_team_model "participants" participants
              eq_refl Hrun _ eq_refl _ eq_refl _ _).
    + apply list_elem_of_further, list_elem_of_here.
    + apply list_elem_of_here.
    + by intros name [s|].
    + repeat constructor.
Defined.

(** ** The order of the set and the script *)

(** The interpreter [R] with another order in which its sets are
    iterated. *)
Definition with_set_order (R : Runtime)
    (add : string → list string → list string)
    (present : ∀ x s, x ∈ s → add x s = s)
    (absent : ∀ x s, x ∉ s → add x s ≡ₚ x :: s) : Runtime :=
  {| to_db_value := to_db_value (Runtime:=R);
     encoders := encoders (Runtime:=R);
     Index_get_sql := Index_get_sql (Runtime:=R);
     Table_str := Table_str (Runtime:=R);
     set_add := add;
     set_add_present := present;
     set_add_absent := absent;
     is_public := is_public (Runtime:=R);
     is_public_eq := is_public_eq (Runtime:=R) |}.

Lemma set_add_one (R : Runtime) (n : string) (names : list string) :
  names = [] ∨ names = [n] → set_add n names = [n].
Proof.
  intros [->| ->].
  - apply Permutation_singleton_r, set_add_absent, not_elem_of_nil.
  - apply set_add_present. by left.
Qed.

Section one_namespace.
Context `{B : BaseSchemaGenerator} (R : Runtime).
Variable add : string → list string → list string.
Variable present : ∀ x s, x ∈ s → add x s = s.
Variable absent : ∀ x s, x ∉ s → add x s ≡ₚ x :: s.

Lemma collect_table_any_order (safe : bool) (acc : list TableSql)
    (model : Model) (g : Generator) (n : string) :
  schema model = None ∨ schema model = Some n →
  schema_names g = [] ∨ schema_names g = [n] →
  collect_table (R:=with_set_order R add present absent) safe acc model g
  = collect_table (R:=R) safe acc model g
  ∧ (schema_names (collect_table (R:=R) safe acc model g).2 = []
     ∨ schema_names (collect_table (R:=R) safe acc model g).2 = [n]).
Proof.
  intros Hschema Hnames. unfold collect_table, bind, ret, schema_names_add.
  assert (∀ g0, schema_names
                  (match _get_table_sql (R:=R) model safe g0 with
                   | (Ok a, g') => (Ok (acc ++ [a]), g')
                   | (Raise e, g') => (Raise e, g')
                   end).2 = schema_names g0) as Hframe.
  { intros g0.
    pose proof (frames_schema_names _ g0
                  (frames_get_table_sql (R:=R) model safe)) as Hsame.
    by destruct (_get_table_sql model safe g0) as [[t|e] g1]. }
  destruct Hschema as [-> | ->].
  - split; [reflexivity|]. by rewrite Hframe.
  - rewrite (set_add_one R n _ Hnames).
    rewrite (set_add_one (with_set_order R add present absent) n _ Hnames).
    split; [reflexivity|]. rewrite Hframe. by right.
Qed.

Lemma collect_any_order (safe : bool) (n : string) (models : list Model) :
  ∀ acc g,
    (∀ m, m ∈ models → schema m = None ∨ schema m = Some n) →
    schema_names g = [] ∨ schema_names g = [n] →
    foldM (collect_table (R:=with_set_order R add present absent) safe)
      acc models g
    = foldM (collect_table (R:=R) safe) acc models g.
Proof.
  induction models as [|m models IH]; intros acc g Hmodels Hnames;
    [done|].
  cbn [foldM]. unfold bind.
  destruct (collect_table_any_order safe acc m g n) as [-> Hafter];
    [apply Hmodels; by left|done|].
  destruct (collect_table safe acc m g) as [[acc'|e] g1]; [|done].
  apply IH; [|done]. intros m' Hm'. apply Hmodels. by right.
Qed.

(** With at most one namespace among the models, and no other name held
    by the generator, the order in which the interpreter iterates a set
    plays no part: the call gives the same result and leaves the same
    generator under any such order. *)
Theorem one_namespace_any_set_order (safe : bool) (g : Generator)
    (n : string) :
  (∀ m, m ∈ _get_models_to_create → schema m = None ∨ schema m = Some n) →
  schema_names g = [] ∨ schema_names g = [n] →
  get_create_schema_sql (R:=with_set_order R add present absent) safe g
  = get_create_schema_sql (R:=R) safe g.
Proof.
  intros Hmodels Hnames. unfold get_create_schema_sql, bind.
  by rewrite (collect_any_order safe n _ [] g Hmodels Hnames).
Qed.

End one_namespace.

Lemma one_namespace_any_set_order_witness :
  get_create_schema_sql (B:=simple_base [team_model; log_model "sport"])
    (R:=with_set_order insertion_order add_first add_first_present
          add_first_absent) true init
  = get_create_schema_sql (B:=simple_base [team_model; log_model "sport"])
      (R:=insertion_order) true init.
Proof.
  apply (one_namespace_any_set_order
           (B:=simple_base [team_model; log_model "sport"])
           insertion_order add_first add_first_present add_first_absent
           true init "sport").
  - intros m [->|[->|[]%elem_of_nil]%elem_of_cons]%elem_of_cons; by right.
  - by left.
Defined.
